(** * An in-memory event broker with consumer groups and long polling

    Shallow embedding of [challenge.mjs]: the three module-level maps
    ([events], [groupConsumption], [waiters]), the two exported functions
    [push] and [blockingGet], the helper [markConsumed] and the periodic
    cleanup callback.

    JavaScript runs each callback to completion; [blockingGet] has a single
    suspension point (its [await]).  The model therefore cuts the program
    into atomic blocks and lets any scheduler interleave them:
    - a whole call of [push];
    - [blockingGet] from its entry up to its [return] or its [await];
    - a timer callback installed by [setTimeout(resolve, ...)];
    - the continuation of [blockingGet] after its [await];
    - one run of the cleanup callback.
    Reads of the environment ([Date.now()], [Math.random()]) are arguments
    of the block that performs them. *)

From Stdlib Require Import ZArith Lia Ascii.
From stdpp Require Import base strings gmap sets list pretty.

Open Scope Z_scope.

#[local] Set Warnings "-register-all".

(** ** Constants *)

Definition EVENT_EXPIRY_MS : Z := 2 * 60 * 1000.
Definition BLOCKING_TIMEOUT_MS : Z := 30 * 1000.
Definition CLEANUP_INTERVAL_MS : Z := 10 * 1000.

(** ** JavaScript values that reach the module *)

(** The payload handed to [push].  Numbers are the integers and [NaN]; an
    object is its list of fields. *)
Inductive value :=
  | VUndefined
  | VNull
  | VBool (b : bool)
  | VNum (n : Z)
  | VNaN
  | VStr (s : string)
  | VObj (fields : list (string * value)).

(** [ToBoolean]: what [x || y] and [!x] test. *)
Definition truthy (v : value) : bool :=
  match v with
  | VUndefined | VNull | VNaN => false
  | VBool b => b
  | VNum n => negb (n =? 0)
  | VStr s => negb (String.eqb s "")
  | VObj _ => true
  end.

(** [a || b] *)
Definition js_or (a b : value) : value := if truthy a then a else b.

(** The empty object literal. *)
Definition empty_object : value := VObj [].

(** A [key] or [groupId] argument: a string, or [None] when the caller left
    it out ([undefined]). *)
Definition arg := option string.

(** [!a] on such an argument. *)
Definition missing (a : arg) : bool :=
  match a with
  | None => true
  | Some s => String.eqb s ""
  end.

(** ** Data *)

Record event := Event {
  id : string;
  data : value;
  timestamp : Z
}.

(** A [blockingGet] call suspended at its [await].  The closure keeps [key]
    and [groupId]; [resolved] is the state of the promise it awaits. *)
Record call := Call {
  c_key : string;
  c_groupId : string;
  resolved : bool
}.

(** The module state.  A [resolve] function is named by the number of the
    call that created it.  [promises], [timers] and [next] are the part of
    the runtime the module relies on: the suspended calls, the pending
    [setTimeout] callbacks, and the next fresh name. *)
Record state := State {
  events : gmap string (list event);
  groupConsumption : gmap string (gset string);
  waiters : gmap string (list nat);
  promises : gmap nat call;
  timers : gset nat;
  next : nat
}.

Definition init : state := State ∅ ∅ ∅ ∅ ∅ 0%nat.

(** What an atomic block hands back to its environment.  Both exported
    functions are [async]: a call completes by returning a promise, and a
    [throw] in the body rejects that promise.  [OThrow] is an exception
    that propagates out of the call itself, [ORejected] a returned promise
    that is rejected with [Error(msg)]; [OPushed] and [OReturn] are
    returned promises that are fulfilled. *)
Inductive output :=
  | OThrow (msg : string)
  | ORejected (msg : string)
  | OPushed (e : event) (woken : list nat)
  | OReturn (key groupId : arg) (evs : list event)
  | OAwait (w : nat)
  | OFired (w : nat)
  | OSwept
  | OIdle.

(** ** The cleanup callback *)

Definition valid_at (now : Z) (evts : list event) : list event :=
  filter (λ e, now - timestamp e < EVENT_EXPIRY_MS) evts.

(** One iteration of the [for ... of events.entries()] loop. *)
Definition cleanup_entry (now : Z) (m : gmap string (list event))
    (entry : string * list event) : gmap string (list event) :=
  let valid := valid_at now entry.2 in
  if decide (0 < length valid)%nat then <[entry.1 := valid]> m
  else delete entry.1 m.

Definition cleanup_events (now : Z) (m : gmap string (list event))
    : gmap string (list event) :=
  foldl (cleanup_entry now) m (map_to_list m).

Definition cleanup (now : Z) (st : state) : state :=
  State (cleanup_events now (events st)) (groupConsumption st) (waiters st)
        (promises st) (timers st) (next st).

(** ** [push] *)

(** The template literal [`${key}-${Date.now()}-${rnd}`]. *)
Definition make_id (key : string) (now : Z) (rnd : string) : string :=
  key +:+ "-" +:+ pretty now +:+ "-" +:+ rnd.

(** Calling a [resolve] function: settles the promise if it is still
    pending, does nothing otherwise. *)
Definition resolve (w : nat) (ps : gmap nat call) : gmap nat call :=
  match ps !! w with
  | Some c => <[w := Call (c_key c) (c_groupId c) true]> ps
  | None => ps
  end.

(** [now_id] and [now_ts] are the two readings of [Date.now()], [rnd] is
    [Math.random().toString(36).slice(2)].  The function is [async]: its
    [throw] rejects the promise it returns. *)
Definition push (now_id : Z) (rnd : string) (now_ts : Z)
    (key : arg) (d : value) (st : state) : state * output :=
  match key with
  | Some k =>
    if missing key then (st, ORejected "Missing key")
    else
      let newEvent := Event (make_id k now_id rnd) (js_or d empty_object) now_ts in
      let evs0 := match events st !! k with
                  | Some _ => events st
                  | None => <[k := []]> (events st)
                  end in
      let evs1 := <[k := default [] (evs0 !! k) ++ [newEvent]]> evs0 in
      match waiters st !! k with
      | Some ws =>
        (State evs1 (groupConsumption st) (delete k (waiters st))
               (foldl (λ ps w, resolve w ps) (promises st) ws)
               (timers st) (next st),
         OPushed newEvent ws)
      | None =>
        (State evs1 (groupConsumption st) (waiters st) (promises st)
               (timers st) (next st),
         OPushed newEvent [])
      end
  | None => (st, ORejected "Missing key")
  end.

(** ** [blockingGet] *)

(** The template literal [`${key}:${groupId}`]. *)
Definition groupKey (key groupId : string) : string :=
  key +:+ ":" +:+ groupId.

(** The closure [getUnconsumed]. *)
Definition getUnconsumed (key gk : string) (st : state) : list event :=
  let allEvents := default [] (events st !! key) in
  let consumed := default ∅ (groupConsumption st !! gk) in
  filter (λ e, id e ∉ consumed) allEvents.

Definition markConsumed (gk : string) (eventsArr : list event)
    (gc : gmap string (gset string)) : gmap string (gset string) :=
  let gc0 := match gc !! gk with
             | Some _ => gc
             | None => <[gk := ∅]> gc
             end in
  let consumed := default ∅ (gc0 !! gk) in
  <[gk := foldl (λ s e, s ∪ {[id e]}) consumed eventsArr]> gc0.

(** The test-mark-return pattern that occurs twice in [blockingGet]:
    [Some] is the early [return unconsumed], [None] falls through. *)
Definition check (key gk : string) (st : state)
    : option (state * list event) :=
  let unconsumed := getUnconsumed key gk st in
  if decide (0 < length unconsumed)%nat then
    Some (State (events st) (markConsumed gk unconsumed (groupConsumption st))
                (waiters st) (promises st) (timers st) (next st),
          unconsumed)
  else None.

(** The executor of [new Promise(...)]: registers the fresh [resolve] under
    [key] and arms its timer. *)
Definition register (key groupId : string) (st : state) : state * nat :=
  let w := next st in
  let ws0 := match waiters st !! key with
             | Some _ => waiters st
             | None => <[key := []]> (waiters st)
             end in
  let ws1 := <[key := default [] (ws0 !! key) ++ [w]]> ws0 in
  (State (events st) (groupConsumption st) ws1
         (<[w := Call key groupId false]> (promises st))
         ({[w]} ∪ timers st) (S w),
   w).

(** [blockingGet] from its entry to its first [return] or to its [await]. *)
Definition blockingGet_start (key groupId : arg) (st : state)
    : state * output :=
  match key, groupId with
  | Some k, Some g =>
    if missing key || missing groupId then (st, OReturn key groupId [])
    else
      match check k (groupKey k g) st with
      | Some (st', unconsumed) => (st', OReturn key groupId unconsumed)
      | None => let '(st', w) := register k g st in (st', OAwait w)
      end
  | _, _ => (st, OReturn key groupId [])
  end.

(** The rest of [blockingGet], run once the awaited promise is settled. *)
Definition blockingGet_resume (w : nat) (st : state) : state * output :=
  match promises st !! w with
  | Some c =>
    if resolved c then
      let st0 := State (events st) (groupConsumption st) (waiters st)
                       (delete w (promises st)) (timers st) (next st) in
      match check (c_key c) (groupKey (c_key c) (c_groupId c)) st0 with
      | Some (st', unconsumed) =>
        (st', OReturn (Some (c_key c)) (Some (c_groupId c)) unconsumed)
      | None => (st0, OReturn (Some (c_key c)) (Some (c_groupId c)) [])
      end
    else (st, OIdle)
  | None => (st, OIdle)
  end.

(** The callback of [setTimeout(resolve, BLOCKING_TIMEOUT_MS)]. *)
Definition timeout (w : nat) (st : state) : state * output :=
  if decide (w ∈ timers st) then
    (State (events st) (groupConsumption st) (waiters st)
           (resolve w (promises st)) (timers st ∖ {[w]}) (next st),
     OFired w)
  else (st, OIdle).

(** ** Schedules *)

Inductive action :=
  | APush (now_id : Z) (rnd : string) (now_ts : Z) (key : arg) (d : value)
  | AGet (key groupId : arg)
  | ATimeout (w : nat)
  | AResume (w : nat)
  | ASweep (now : Z).

Definition step (a : action) (st : state) : state * output :=
  match a with
  | APush now_id rnd now_ts key d => push now_id rnd now_ts key d st
  | AGet key groupId => blockingGet_start key groupId st
  | ATimeout w => timeout w st
  | AResume w => blockingGet_resume w st
  | ASweep now => (cleanup now st, OSwept)
  end.

(** Runs a schedule and collects the outputs, one per action. *)
Fixpoint run (tr : list action) (st : state) : state * list output :=
  match tr with
  | [] => (st, [])
  | a :: tr' =>
    let '(st1, o) := step a st in
    let '(st2, os) := run tr' st1 in
    (st2, o :: os)
  end.

(** ** Notions used in the statements *)

(** The consumed set a [blockingGet] with consumption key [gk] reads:
    [groupConsumption.get(gk) || new Set()]. *)
Definition consumed_by (gk : string) (gc : gmap string (gset string))
    : gset string :=
  default ∅ (gc !! gk).

(** A suspended call whose promise has been settled. *)
Definition settle (c : call) : call := Call (c_key c) (c_groupId c) true.

(** The new event of a successful [push]. *)
Definition pushed_event (now_id : Z) (rnd : string) (now_ts : Z)
    (k : string) (d : value) : event :=
  Event (make_id k now_id rnd) (js_or d empty_object) now_ts.

(** Registry invariant: every list is duplicate free and holds only names
    that were already handed out. *)
Definition registry_ok (st : state) : Prop :=
  ∀ k ws, waiters st !! k = Some ws →
    NoDup ws ∧ ∀ w, w ∈ ws → (w < next st)%nat.

(** What the sweep leaves under a key that held [evts]. *)
Definition swept (now : Z) (evts : list event) : option (list event) :=
  let valid := filter (λ e, now - timestamp e < 120000) evts in
  if decide (valid = []) then None else Some valid.

(** Every [Date.now()] of block [a] reads the time [t]. *)
Definition reads_clock (t : Z) (a : action) : bool :=
  match a with
  | APush now_id _ now_ts _ _ => (now_id =? t) && (now_ts =? t)
  | ASweep now => now =? t
  | _ => true
  end.

(** A schedule with the wall-clock time of each block: the clock starts
    at [from] or later and never runs backwards, and each block reads its
    own time. *)
Fixpoint well_timed (from : Z) (sched : list (Z * action)) : bool :=
  match sched with
  | [] => true
  | (t, a) :: rest => (from <=? t) && reads_clock t a && well_timed t rest
  end.

(** Every [push] of the schedule stamps its event at [now] or later. *)
Definition pushes_from (now : Z) (a : action) : Prop :=
  match a with
  | APush _ _ now_ts _ _ => now ≤ now_ts
  | _ => True
  end.

(** Every stored event is younger than the retention window at [now]. *)
Definition young (now : Z) (st : state) : Prop :=
  ∀ k evts e, events st !! k = Some evts → e ∈ evts →
    now - timestamp e < EVENT_EXPIRY_MS.

(** [n] calls of [blockingGet("k", "g")] in a row, each one ended by its
    timer; [first] is the name of the first waiter. *)
Fixpoint timed_out_calls (n : nat) (first : nat) : list action :=
  match n with
  | O => []
  | S n' =>
    AGet (Some "k") (Some "g") :: ATimeout first :: AResume first
    :: timed_out_calls n' (S first)
  end.

(** Every call that still waits has its timer armed and its [resolve]
    listed under its key. *)
Definition pending_ok (st : state) : Prop :=
  ∀ w c, promises st !! w = Some c → resolved c = false →
    w ∈ timers st ∧ ∃ ws, waiters st !! c_key c = Some ws ∧ w ∈ ws.

(** No key of [events] or [waiters] maps to an empty array. *)
Definition stores_nonempty (st : state) : Prop :=
  (∀ k l, events st !! k = Some l → l ≠ [])
  ∧ (∀ k ws, waiters st !! k = Some ws → ws ≠ []).

(** [a] is a call of [push] with key [k]. *)
Definition is_push_on (k : string) (a : action) : Prop :=
  match a with
  | APush _ _ _ (Some k') _ => k' = k
  | _ => False
  end.

(** [a] is a run of the cleanup callback. *)
Definition is_sweep (a : action) : Prop :=
  match a with
  | ASweep _ => True
  | _ => False
  end.

(** The character [c] occurs in [s]. *)
Fixpoint occurs (c : Ascii.ascii) (s : string) : bool :=
  match s with
  | EmptyString => false
  | String c' s' => if decide (c = c') then true else occurs c s'
  end.

(** Block [a] does not prune [e]: it is not a sweep at a time when [e] has
    reached the retention window. *)
Definition keeps (e : event) (a : action) : Prop :=
  match a with
  | ASweep now => now - timestamp e < EVENT_EXPIRY_MS
  | _ => True
  end.

(** The output [o] is a [blockingGet] result, for a call whose consumption
    key is [gk], that carries an event with id [x]. *)
Definition hands_over (gk x : string) (o : output) : bool :=
  match o with
  | OReturn (Some k) (Some g) r =>
    bool_decide (groupKey k g = gk) && bool_decide (x ∈ id <$> r)
  | _ => false
  end.

(** Some output of the list hands [x] over under [gk]. *)
Definition delivered (gk x : string) (outs : list output) : bool :=
  existsb (hands_over gk x) outs.

(** Every suspended call has a name that was handed out before. *)
Definition names_ok (st : state) : Prop :=
  ∀ w c, promises st !! w = Some c → (w < next st)%nat.

(** * Properties *)

(** ** Arguments *)

Lemma missing_false (a : arg) :
  missing a = false ↔ ∃ s, a = Some s ∧ s ≠ "".
Proof.
  destruct a as [s|]; simpl.
  - rewrite String.eqb_neq. split; [intros H; exists s; auto |].
    intros (s' & [= <-] & H). exact H.
  - split; [discriminate | intros (s & [=] & _)].
Qed.

Lemma missing_true (a : arg) :
  missing a = true ↔ a = None ∨ a = Some "".
Proof.
  destruct a as [s|]; simpl.
  - rewrite String.eqb_eq. split; [intros ->; by right | intros [[=]|[= ->]]; done].
  - split; [by left | done].
Qed.

(** ** The consumption tracker *)

Lemma add_ids_elem (evs : list event) (s : gset string) (x : string) :
  x ∈ foldl (λ s e, s ∪ {[id e]}) s evs ↔ x ∈ s ∨ ∃ e, e ∈ evs ∧ id e = x.
Proof.
  revert s. induction evs as [|e evs IH]; intros s; simpl.
  - split; [by left | intros [?|(e & He & _)]; [done | by inversion He]].
  - rewrite IH, elem_of_union, elem_of_singleton. split.
    + intros [[?| ->]|(e' & ? & ?)]; [by left | right; exists e | right; exists e'];
        split; auto; constructor; done.
    + intros [?|(e' & He' & <-)]; [by left; left |].
      apply elem_of_cons in He' as [-> |?]; [by left; right | right; eauto].
Qed.

Lemma markConsumed_same gk evs gc x :
  x ∈ consumed_by gk (markConsumed gk evs gc)
  ↔ x ∈ consumed_by gk gc ∨ ∃ e, e ∈ evs ∧ id e = x.
Proof.
  unfold consumed_by, markConsumed. rewrite lookup_insert_eq. simpl.
  rewrite add_ids_elem.
  destruct (gc !! gk) as [s|] eqn:E; [by rewrite E |].
  by rewrite lookup_insert_eq.
Qed.

Lemma markConsumed_other gk gk' evs gc :
  gk ≠ gk' → markConsumed gk evs gc !! gk' = gc !! gk'.
Proof.
  intros Hne. unfold markConsumed. rewrite lookup_insert_ne by done.
  destruct (gc !! gk); [done | by rewrite lookup_insert_ne].
Qed.

Lemma markConsumed_mono gk gk' evs gc x :
  x ∈ consumed_by gk' gc → x ∈ consumed_by gk' (markConsumed gk evs gc).
Proof.
  destruct (decide (gk = gk')) as [->|Hne].
  - rewrite markConsumed_same. by left.
  - unfold consumed_by. by rewrite markConsumed_other.
Qed.

Lemma getUnconsumed_elem key gk st e :
  e ∈ getUnconsumed key gk st
  ↔ e ∈ default [] (events st !! key)
    ∧ id e ∉ consumed_by gk (groupConsumption st).
Proof.
  unfold getUnconsumed, consumed_by. rewrite list_elem_of_filter. tauto.
Qed.

Lemma groupKey_inj_group key g1 g2 :
  groupKey key g1 = groupKey key g2 → g1 = g2.
Proof.
  unfold groupKey. intros H.
  apply (inj (String.app key)) in H. by apply (inj (String.app ":")) in H.
Qed.

(** ** The two checks of [blockingGet] *)

Lemma check_Some key gk st st' evs :
  check key gk st = Some (st', evs) →
  evs = getUnconsumed key gk st ∧ evs ≠ [] ∧
  st' = State (events st) (markConsumed gk evs (groupConsumption st))
              (waiters st) (promises st) (timers st) (next st).
Proof.
  unfold check. case_decide as Hlen; [|done].
  intros [= <- <-]. split_and!; [done | | done].
  intros E. rewrite E in Hlen. simpl in Hlen. lia.
Qed.

Lemma check_None key gk st :
  check key gk st = None ↔ getUnconsumed key gk st = [].
Proof.
  unfold check. case_decide as Hlen.
  - split; [done |]. intros E. rewrite E in Hlen. simpl in Hlen. lia.
  - split; [| done]. intros _.
    destruct (getUnconsumed key gk st); [done | simpl in Hlen; lia].
Qed.

(** Case split on the [check] that the goal or [H] runs. *)
Ltac split_check Hc :=
  match goal with
  | |- context [check ?k ?gk ?s] =>
    let st1 := fresh "st1" in let r := fresh "r" in
    destruct (check k gk s) as [[st1 r]|] eqn:Hc
  | H : context [check ?k ?gk ?s] |- _ =>
    let st1 := fresh "st1" in let r := fresh "r" in
    destruct (check k gk s) as [[st1 r]|] eqn:Hc
  end.

(** What a [return] of [blockingGet] tells about the stores around it. *)
Lemma step_return a st st' key groupId evs e :
  step a st = (st', OReturn key groupId evs) → e ∈ evs →
  ∃ k g, key = Some k ∧ groupId = Some g ∧
    (e ∈ default [] (events st !! k)) ∧
    (id e ∉ consumed_by (groupKey k g) (groupConsumption st)) ∧
    (id e ∈ consumed_by (groupKey k g) (groupConsumption st')).
Proof.
  intros Hstep He. destruct a as [ni rnd nt k d|k g|w|w|now]; simpl in Hstep.
  - unfold push in Hstep. repeat case_match; simplify_eq.
  - unfold blockingGet_start in Hstep.
    destruct k as [k|], g as [g|]; try (simplify_eq; by inversion He).
    destruct (missing (Some k) || missing (Some g));
      [simplify_eq; by inversion He|].
    destruct (check k (groupKey k g) st) as [[st1 r]|] eqn:Hc.
    + simplify_eq. apply check_Some in Hc as (-> & _ & ->). simpl.
      exists k, g. apply getUnconsumed_elem in He as He'. destruct He'.
      split_and!; try done. apply markConsumed_same. right. eauto.
    + unfold register in Hstep. simplify_eq.
  - unfold timeout in Hstep. case_decide; simplify_eq.
  - unfold blockingGet_resume in Hstep.
    destruct (promises st !! w) as [c|]; [|simplify_eq].
    destruct (resolved c); [|simplify_eq].
    split_check Hc.
    + simplify_eq. apply check_Some in Hc as (-> & _ & ->). simpl.
      exists (c_key c), (c_groupId c).
      apply getUnconsumed_elem in He as He'. destruct He'.
      split_and!; try done. apply markConsumed_same. right. eauto.
    + simplify_eq. by inversion He.
  - simplify_eq.
Qed.

(** No block ever removes an id from a consumed set. *)
Lemma step_consumed_mono a st gk x :
  x ∈ consumed_by gk (groupConsumption st) →
  x ∈ consumed_by gk (groupConsumption (step a st).1).
Proof.
  intros Hx. destruct a as [ni rnd nt k d|k g|w|w|now]; simpl.
  - unfold push. destruct k as [k|]; [|done].
    destruct (missing (Some k)); [done|].
    destruct (waiters st !! k); done.
  - unfold blockingGet_start.
    destruct k as [k|], g as [g|]; try done.
    destruct (missing (Some k) || missing (Some g)); [done|].
    destruct (check k (groupKey k g) st) as [[st1 r]|] eqn:Hc; simpl.
    + apply check_Some in Hc as (_ & _ & ->). simpl.
      by apply markConsumed_mono.
    + done.
  - unfold timeout. case_decide; done.
  - unfold blockingGet_resume.
    destruct (promises st !! w) as [c|]; [|done].
    destruct (resolved c); [|done].
    split_check Hc; simpl.
    + apply check_Some in Hc as (_ & _ & ->). simpl.
      by apply markConsumed_mono.
    + done.
  - done.
Qed.

Lemma run_cons a tr st :
  run (a :: tr) st =
  ((run tr (step a st).1).1, (step a st).2 :: (run tr (step a st).1).2).
Proof.
  cbn [run]. destruct (step a st) as [st1 o]. cbn [fst snd].
  by destruct (run tr st1).
Qed.

Lemma run_consumed_mono tr st gk x :
  x ∈ consumed_by gk (groupConsumption st) →
  x ∈ consumed_by gk (groupConsumption (run tr st).1).
Proof.
  revert st. induction tr as [|a tr IH]; intros st Hx; [done|].
  rewrite run_cons. simpl. apply IH. by apply step_consumed_mono.
Qed.

(** Once an id is in the consumed set of [(key, groupId)], no later
    [return] for that pair carries it. *)
Lemma run_return_fresh tr st k g x j evs e :
  x ∈ consumed_by (groupKey k g) (groupConsumption st) →
  (run tr st).2 !! j = Some (OReturn (Some k) (Some g) evs) →
  e ∈ evs → id e ≠ x.
Proof.
  revert st j. induction tr as [|a tr IH]; intros st j Hx Hj He.
  - done.
  - rewrite run_cons in Hj. simpl in Hj. destruct j as [|j]; simpl in Hj.
    + destruct (step a st) as [st' o] eqn:Hs. simpl in Hj. simplify_eq.
      destruct (step_return _ _ _ _ _ _ _ Hs He) as (k' & g' & ? & ? & _ & Hn & _).
      simplify_eq. congruence.
    + apply (IH (step a st).1 j); [by apply step_consumed_mono | done | done].
Qed.

(** ** Delivery to one group *)

(** C1 (no duplicate delivery).  In every schedule, from every state, two
    returns of [blockingGet] for the same [key] and [groupId] never carry
    the same event id, the earlier in one and the later in the other. *)
Theorem no_duplicate_delivery (tr : list action) (st : state) (i j : nat)
    (key groupId : arg) (r1 r2 : list event) (e1 e2 : event) :
  (i < j)%nat →
  (run tr st).2 !! i = Some (OReturn key groupId r1) →
  (run tr st).2 !! j = Some (OReturn key groupId r2) →
  e1 ∈ r1 → e2 ∈ r2 → id e1 ≠ id e2.
Proof.
  revert st i j. induction tr as [|a tr IH]; intros st i j Hij Hi Hj H1 H2.
  - done.
  - rewrite run_cons in Hi, Hj. simpl in Hi, Hj.
    destruct j as [|j]; [lia|]. simpl in Hj.
    destruct i as [|i]; simpl in Hi.
    + destruct (step a st) as [st' o] eqn:Hs. simpl in *. simplify_eq.
      destruct (step_return _ _ _ _ _ _ _ Hs H1) as (k & g & -> & -> & _ & _ & Hin).
      intros E. by eapply (run_return_fresh tr st' k g (id e1) j r2 e2).
    + apply (IH (step a st).1 i j); [lia | done | done | done | done].
Qed.

Lemma no_duplicate_delivery_witness :
  id (Event "orders-10-a" (VNum 1) 10) ≠ id (Event "orders-20-b" (VNum 2) 20).
Proof.
  apply (no_duplicate_delivery
           [APush 10 "a" 10 (Some "orders") (VNum 1);
            AGet (Some "orders") (Some "g1");
            APush 20 "b" 20 (Some "orders") (VNum 2);
            AGet (Some "orders") (Some "g1")]
           init 1 3 (Some "orders") (Some "g1")
           [Event "orders-10-a" (VNum 1) 10]
           [Event "orders-20-b" (VNum 2) 20]).
  - lia.
  - vm_compute. reflexivity.
  - vm_compute. reflexivity.
  - constructor.
  - constructor.
Defined.

(** ** Argument checks *)

(** The guard [if (!key) throw ...] in closed form. *)
Lemma push_rejects now_id rnd now_ts key d st :
  missing key = true →
  push now_id rnd now_ts key d st = (st, ORejected "Missing key").
Proof.
  intros H. unfold push. destruct key as [k|]; [|done]. by rewrite H.
Qed.

(** C4, as the code has it.  [push] with a missing or empty [key] does not
    throw to its caller: being [async], it returns a promise rejected with
    [Error("Missing key")].  The whole state, the three stores included,
    is as it was. *)
Theorem push_missing_key (now_id : Z) (rnd : string) (now_ts : Z)
    (key : arg) (d : value) (st : state) :
  missing key = true →
  (push now_id rnd now_ts key d st).2 = ORejected "Missing key"
  ∧ (∀ msg, (push now_id rnd now_ts key d st).2 ≠ OThrow msg)
  ∧ (push now_id rnd now_ts key d st).1 = st
  ∧ events (push now_id rnd now_ts key d st).1 = events st
  ∧ groupConsumption (push now_id rnd now_ts key d st).1 = groupConsumption st
  ∧ waiters (push now_id rnd now_ts key d st).1 = waiters st.
Proof. intros H. by rewrite push_rejects. Qed.

Lemma push_missing_key_witness :
  (push 7 "r" 7 (Some "") (VNum 1) init).2 = ORejected "Missing key"
  ∧ (push 7 "r" 7 None (VNum 1) init).1 = init.
Proof.
  split.
  - apply (push_missing_key 7 "r" 7 (Some "") (VNum 1) init). reflexivity.
  - apply (push_missing_key 7 "r" 7 None (VNum 1) init). reflexivity.
Defined.

(** C4, as stated, fails: [push("", 1)] and [push(undefined, 1)] on the
    empty broker throw nothing; each returns a rejected promise. *)
Lemma push_missing_key_is_a_rejection :
  (push 7 "r" 7 (Some "") (VNum 1) init).2 = ORejected "Missing key"
  ∧ (push 7 "r" 7 None (VNum 1) init).2 = ORejected "Missing key"
  ∧ ¬ (∃ msg, (push 7 "r" 7 (Some "") (VNum 1) init).2 = OThrow msg)
  ∧ ¬ (∃ msg, (push 7 "r" 7 None (VNum 1) init).2 = OThrow msg).
Proof. split_and!; [done | done | intros [msg [=]] | intros [msg [=]]]. Qed.

(** No block of the module ever throws to its caller. *)
Lemma step_never_throws a st msg : (step a st).2 ≠ OThrow msg.
Proof.
  destruct a as [ni rnd nt k d|k g|w|w|now]; simpl.
  - unfold push. destruct k as [k|]; [|done].
    destruct (missing (Some k)); [done|]. by destruct (waiters st !! k).
  - unfold blockingGet_start. destruct k as [k|], g as [g|]; try done.
    destruct (missing (Some k) || missing (Some g)); [done|].
    destruct (check k (groupKey k g) st) as [[st1 r]|]; [done|].
    unfold register. done.
  - unfold timeout. by case_decide.
  - unfold blockingGet_resume.
    destruct (promises st !! w) as [c|]; [|done].
    destruct (resolved c); [|done].
    by destruct (check _ _ _) as [[st1 r]|].
  - done.
Qed.

(** C7.  [blockingGet] with a missing or empty [key] or [groupId] returns
    the empty array in its first block: nothing is thrown, no waiter is
    registered, and the state is the one it started from. *)
Theorem blockingGet_missing_argument (key groupId : arg) (st : state) :
  missing key = true ∨ missing groupId = true →
  blockingGet_start key groupId st = (st, OReturn key groupId []).
Proof.
  intros H. unfold blockingGet_start.
  destruct key as [k|], groupId as [g|]; try done.
  destruct H as [-> | ->]; [done | by rewrite orb_true_r].
Qed.

Lemma blockingGet_missing_argument_witness :
  blockingGet_start (Some "k") (Some "") init
  = (init, OReturn (Some "k") (Some "") []).
Proof. apply blockingGet_missing_argument. right. reflexivity. Defined.

(** ** [push] and the waiter registry *)

Lemma resolve_lookup w w' ps :
  resolve w ps !! w' = if decide (w = w') then settle <$> ps !! w' else ps !! w'.
Proof.
  unfold resolve. case_decide as E.
  - subst w'. destruct (ps !! w) as [c|] eqn:Hc; rewrite ?lookup_insert_eq, ?Hc; done.
  - destruct (ps !! w); [by rewrite lookup_insert_ne | done].
Qed.

Lemma resolve_all_lookup ws ps w :
  foldl (λ ps w, resolve w ps) ps ws !! w
  = if decide (w ∈ ws) then settle <$> ps !! w else ps !! w.
Proof.
  revert ps. induction ws as [|w0 ws IH]; intros ps; cbn [foldl].
  - rewrite decide_False; [done | intros E; inversion E].
  - rewrite IH, resolve_lookup.
    destruct (decide (w ∈ w0 :: ws)) as [Hin|Hnin].
    + destruct (decide (w0 = w)) as [->|Hne].
      * case_decide; [|done]. by destruct (ps !! w).
      * apply elem_of_cons in Hin as [?|Hin]; [congruence|].
        by rewrite decide_True.
    + rewrite (decide_False (P := w0 = w))
        by (intros E; subst w0; apply Hnin; constructor).
      rewrite decide_False; [done|]. intros ?. apply Hnin. by constructor.
Qed.

(** A successful [push] in closed form. *)
Lemma push_ok now_id rnd now_ts k d st :
  k ≠ "" →
  push now_id rnd now_ts (Some k) d st =
  (State (<[k := default [] (events st !! k)
                 ++ [pushed_event now_id rnd now_ts k d]]> (events st))
         (groupConsumption st)
         (delete k (waiters st))
         (foldl (λ ps w, resolve w ps) (promises st)
                (default [] (waiters st !! k)))
         (timers st) (next st),
   OPushed (pushed_event now_id rnd now_ts k d) (default [] (waiters st !! k))).
Proof.
  intros Hk. unfold push, pushed_event. simpl.
  apply String.eqb_neq in Hk. rewrite Hk.
  assert (∀ e : event,
    <[k := default [] (match events st !! k with
                       | Some _ => events st
                       | None => <[k := []]> (events st)
                       end !! k) ++ [e]]>
      (match events st !! k with
       | Some _ => events st
       | None => <[k := []]> (events st)
       end)
    = <[k := default [] (events st !! k) ++ [e]]> (events st)) as Hev.
  { intros e. destruct (events st !! k) as [l|] eqn:E.
    - by rewrite E.
    - by rewrite lookup_insert_eq, insert_insert_eq. }
  rewrite Hev.
  destruct (waiters st !! k) as [ws|] eqn:Hw; simpl; [done|].
  by rewrite delete_id.
Qed.

(** The executor of the promise in closed form. *)
Lemma register_waiters key groupId st :
  waiters (register key groupId st).1
  = <[key := default [] (waiters st !! key) ++ [next st]]> (waiters st).
Proof.
  unfold register. simpl. destruct (waiters st !! key) as [l|] eqn:E.
  - by rewrite E.
  - by rewrite lookup_insert_eq, insert_insert_eq.
Qed.

Lemma registry_ok_init : registry_ok init.
Proof. intros k ws H. simpl in H. by rewrite lookup_empty in H. Qed.

Lemma check_waiters key gk st st' evs :
  check key gk st = Some (st', evs) →
  waiters st' = waiters st ∧ next st' = next st.
Proof. intros H. apply check_Some in H as (_ & _ & ->). done. Qed.

Lemma registry_ok_step a st : registry_ok st → registry_ok (step a st).1.
Proof.
  intros Hok. destruct a as [ni rnd nt k d|k g|w|w|now]; simpl.
  - destruct (decide (missing k = true)) as [Hm|Hm].
    + by rewrite push_rejects.
    + apply not_true_is_false, missing_false in Hm as (s & -> & Hs).
      rewrite push_ok by done. intros k' ws. simpl.
      destruct (decide (s = k')) as [->|Hne];
        [by rewrite lookup_delete_eq | rewrite lookup_delete_ne by done].
      apply Hok.
  - unfold blockingGet_start. destruct k as [k|], g as [g|]; try done.
    destruct (missing (Some k) || missing (Some g)); [done|].
    destruct (check k (groupKey k g) st) as [[st1 r]|] eqn:Hc.
    + apply check_waiters in Hc as [Hw Hn]. intros k' ws. simpl.
      rewrite Hw, Hn. apply Hok.
    + pose proof (register_waiters k g st) as Hw.
      destruct (register k g st) as [st1 w] eqn:Hr. simpl in *.
      assert (next st1 = S (next st)) as Hn
        by (unfold register in Hr; by simplify_eq).
      intros k' ws. rewrite Hw, Hn.
      destruct (decide (k = k')) as [->|Hne].
      * rewrite lookup_insert_eq. intros [= <-].
        assert (NoDup (default [] (waiters st !! k'))
                ∧ ∀ w, w ∈ default [] (waiters st !! k') → (w < next st)%nat)
          as [Hnd Hlt].
        { destruct (waiters st !! k') as [l|] eqn:E; simpl.
          - by apply (Hok k').
          - split; [constructor | intros ? H; inversion H]. }
        split.
        -- apply NoDup_app. split_and!; [done | | apply NoDup_singleton].
           intros x Hx Hx'. apply list_elem_of_singleton in Hx' as ->.
           apply Hlt in Hx. lia.
        -- intros x Hx. apply elem_of_app in Hx as [Hx|Hx].
           ++ apply Hlt in Hx. lia.
           ++ apply list_elem_of_singleton in Hx as ->. lia.
      * rewrite lookup_insert_ne by done. intros Hl.
        destruct (Hok _ _ Hl) as [? Hlt]. split; [done|].
        intros x Hx. apply Hlt in Hx. lia.
  - unfold timeout. case_decide; done.
  - unfold blockingGet_resume.
    destruct (promises st !! w) as [c|]; [|done].
    destruct (resolved c); [|done].
    split_check Hc; simpl.
    + apply check_waiters in Hc as [Hw Hn]. intros k' ws.
      rewrite Hw, Hn. apply Hok.
    + done.
  - done.
Qed.

Lemma registry_ok_run tr st : registry_ok st → registry_ok (run tr st).1.
Proof.
  revert st. induction tr as [|a tr IH]; intros st Hok; [done|].
  rewrite run_cons. simpl. by apply IH, registry_ok_step.
Qed.

(** C5.  In any state the module can reach, a successful [push] under [k]
    calls every [resolve] registered under [k], each once and in
    registration order, settles the promises that were still pending, and
    leaves no registry entry for [k]; other keys keep their waiters. *)
Theorem push_notifies_all (tr : list action) (now_id : Z) (rnd : string)
    (now_ts : Z) (k : string) (d : value) :
  k ≠ "" →
  let st := (run tr init).1 in
  let ws := default [] (waiters st !! k) in
  let st' := (push now_id rnd now_ts (Some k) d st).1 in
  (push now_id rnd now_ts (Some k) d st).2
    = OPushed (pushed_event now_id rnd now_ts k d) ws
  ∧ NoDup ws
  ∧ waiters st' !! k = None
  ∧ (∀ k', k' ≠ k → waiters st' !! k' = waiters st !! k')
  ∧ (∀ w c, w ∈ ws → promises st !! w = Some c →
       promises st' !! w = Some (Call (c_key c) (c_groupId c) true))
  ∧ (∀ w, w ∉ ws → promises st' !! w = promises st !! w).
Proof.
  intros Hk st ws st'. subst st'. rewrite push_ok by done. simpl.
  split_and!.
  - done.
  - subst ws. destruct (waiters st !! k) as [l|] eqn:E; simpl; [|constructor].
    by apply (registry_ok_run tr init registry_ok_init k l).
  - apply lookup_delete_eq.
  - intros k' Hne. by apply lookup_delete_ne.
  - intros w c Hin Hc. rewrite resolve_all_lookup, decide_True by done.
    by rewrite Hc.
  - intros w Hnin. by rewrite resolve_all_lookup, decide_False.
Qed.

Lemma push_notifies_all_witness :
  let st := (run [AGet (Some "k") (Some "g1"); AGet (Some "k") (Some "g2")] init).1 in
  (push 5 "r" 5 (Some "k") (VNum 1) st).2
    = OPushed (pushed_event 5 "r" 5 "k" (VNum 1)) [0%nat; 1%nat]
  ∧ waiters (push 5 "r" 5 (Some "k") (VNum 1) st).1 !! "k" = None.
Proof.
  destruct (push_notifies_all
              [AGet (Some "k") (Some "g1"); AGet (Some "k") (Some "g2")]
              5 "r" 5 "k" (VNum 1)) as (H1 & _ & H3 & _).
  - discriminate.
  - split; [exact H1 | exact H3].
Defined.

(** ** Payloads *)

Lemma falsy_values :
  Forall (λ d, truthy d = false)
         [VNull; VUndefined; VNum 0; VStr ""; VBool false; VNaN].
Proof. repeat constructor. Qed.

(** A check that finds the event returns it. *)
Lemma blockingGet_start_returns k g st e :
  k ≠ "" → g ≠ "" →
  e ∈ default [] (events st !! k) →
  id e ∉ consumed_by (groupKey k g) (groupConsumption st) →
  ∃ st' r, blockingGet_start (Some k) (Some g) st
           = (st', OReturn (Some k) (Some g) r)
    ∧ r = getUnconsumed k (groupKey k g) st ∧ e ∈ r
    ∧ events st' = events st
    ∧ groupConsumption st'
      = markConsumed (groupKey k g) r (groupConsumption st).
Proof.
  intros Hk Hg He Hn. unfold blockingGet_start. simpl.
  apply String.eqb_neq in Hk, Hg. rewrite Hk, Hg. simpl.
  assert (e ∈ getUnconsumed k (groupKey k g) st) as Hin
    by by apply getUnconsumed_elem.
  destruct (check k (groupKey k g) st) as [[st1 r]|] eqn:Hc.
  - apply check_Some in Hc as (-> & _ & ->). eauto 10.
  - apply check_None in Hc. rewrite Hc in Hin. inversion Hin.
Qed.

(** C10.  A successful [push] of a falsy payload stores an event whose
    payload is the empty object, and a [blockingGet] of a group that has
    not consumed its id returns that very event. *)
Theorem push_falsy_data (now_id : Z) (rnd : string) (now_ts : Z)
    (k : string) (d : value) (st : state) :
  k ≠ "" → truthy d = false →
  let e := Event (make_id k now_id rnd) empty_object now_ts in
  let st1 := (push now_id rnd now_ts (Some k) d st).1 in
  (∃ ws, (push now_id rnd now_ts (Some k) d st).2 = OPushed e ws)
  ∧ events st1 !! k = Some (default [] (events st !! k) ++ [e])
  ∧ data e = VObj []
  ∧ (∀ g, g ≠ "" →
       id e ∉ consumed_by (groupKey k g) (groupConsumption st) →
       ∃ st2 r, blockingGet_start (Some k) (Some g) st1
                = (st2, OReturn (Some k) (Some g) r) ∧ e ∈ r).
Proof.
  intros Hk Hd e st1. subst st1. rewrite push_ok by done.
  assert (pushed_event now_id rnd now_ts k d = e) as ->.
  { unfold pushed_event, js_or. by rewrite Hd. }
  cbn [fst snd]. split_and!;
    [eauto | simpl; by rewrite lookup_insert_eq | done |].
  intros g Hg Hn.
  edestruct (blockingGet_start_returns k g) as (st2 & r & -> & _ & Hin & _);
    [done | done | | | eauto].
  - simpl. rewrite lookup_insert_eq. simpl. apply elem_of_app. right. constructor.
  - done.
Qed.

Lemma push_falsy_data_witness :
  let e := Event (make_id "orders" 10 "a") empty_object 10 in
  events (push 10 "a" 10 (Some "orders") (VNum 0) init).1 !! "orders"
  = Some (default [] (events init !! "orders") ++ [e]).
Proof.
  destruct (push_falsy_data 10 "a" 10 "orders" (VNum 0) init) as (_ & H & _).
  - discriminate.
  - reflexivity.
  - exact H.
Defined.

(** ** Consumption keys *)

(** C9.  [groupKey] is not injective: the pairs [("a:b", "c")] and
    [("a", "b:c")] get the same consumption key, so whatever a
    [blockingGet] of the first pair returns is, afterwards, in the consumed
    set that a [blockingGet] of the second pair reads and filters by. *)
Theorem groupKey_collision :
  ("a:b", "c") ≠ ("a", "b:c")
  ∧ groupKey "a:b" "c" = groupKey "a" "b:c"
  ∧ ∀ st st' evs e,
      blockingGet_start (Some "a:b") (Some "c") st
      = (st', OReturn (Some "a:b") (Some "c") evs) →
      e ∈ evs →
      id e ∈ consumed_by (groupKey "a" "b:c") (groupConsumption st')
      ∧ ∀ e', id e' = id e →
          e' ∉ getUnconsumed "a" (groupKey "a" "b:c") st'.
Proof.
  split_and!; [done | done |].
  intros st st' evs e Hs He.
  destruct (step_return (AGet (Some "a:b") (Some "c")) _ _ _ _ _ _ Hs He)
    as (k & g & [= <-] & [= <-] & _ & _ & Hin).
  change (groupKey "a:b" "c") with (groupKey "a" "b:c") in Hin.
  split; [done|]. intros e' E Hc. apply getUnconsumed_elem in Hc as [_ Hc].
  by rewrite E in Hc.
Qed.

Lemma groupKey_collision_witness :
  let st := (push 10 "r" 10 (Some "a:b") (VNum 1) init).1 in
  let e := pushed_event 10 "r" 10 "a:b" (VNum 1) in
  id e ∈ consumed_by (groupKey "a" "b:c")
          (groupConsumption (blockingGet_start (Some "a:b") (Some "c") st).1).
Proof.
  destruct groupKey_collision as (_ & _ & H).
  edestruct (H (push 10 "r" 10 (Some "a:b") (VNum 1) init).1) as [Hin _].
  - vm_compute. reflexivity.
  - constructor.
  - exact Hin.
Defined.

(** ** The retention sweep *)

Section sweep.
Variable now : Z.

Lemma cleanup_entry_lookup m k v k' :
  cleanup_entry now m (k, v) !! k'
  = if decide (k = k') then swept now v else m !! k'.
Proof.
  unfold cleanup_entry, swept, valid_at. simpl.
  change EVENT_EXPIRY_MS with 120000.
  set (valid := filter _ v).
  destruct (decide (k = k')) as [<-|Hne].
  - destruct valid as [|e l].
    + rewrite decide_False by (simpl; lia). by rewrite lookup_delete_eq.
    + rewrite decide_True by (simpl; lia). by rewrite lookup_insert_eq.
  - case_decide; [by rewrite lookup_insert_ne | by rewrite lookup_delete_ne].
Qed.

(** The loop over a duplicate-free list of entries. *)
Lemma cleanup_loop_lookup (l : list (string * list event)) m k :
  NoDup l.*1 →
  foldl (cleanup_entry now) m l !! k
  = match (list_to_map l : gmap string (list event)) !! k with
    | Some evts => swept now evts
    | None => m !! k
    end.
Proof.
  revert m. induction l as [|[k0 v0] l IH]; intros m Hnd; simpl.
  - by rewrite lookup_empty.
  - apply NoDup_cons in Hnd as [Hnin Hnd]. simpl in Hnin. rewrite IH by done.
    destruct (decide (k0 = k)) as [->|Hne].
    + rewrite lookup_insert_eq.
      apply not_elem_of_list_to_map_1 in Hnin. rewrite Hnin.
      by rewrite cleanup_entry_lookup, decide_True.
    + rewrite lookup_insert_ne by done.
      destruct (list_to_map l !! k); [done|].
      by rewrite cleanup_entry_lookup, decide_False.
Qed.

Lemma cleanup_events_lookup m k :
  cleanup_events now m !! k = m !! k ≫= swept now.
Proof.
  unfold cleanup_events.
  rewrite cleanup_loop_lookup by apply NoDup_fst_map_to_list.
  rewrite list_to_map_to_list. by destruct (m !! k).
Qed.

End sweep.

(** C8.  One run of the sweep at time [now]: under every key of the event
    store it keeps exactly the events with [now - timestamp < 120000], in
    their order, drops the key when none is left, creates no key, and
    touches no other store. *)
Theorem cleanup_spec (now : Z) (st : state) :
  (∀ k, events (cleanup now st) !! k
        = match events st !! k with
          | Some evts =>
            let valid := filter (λ e, now - timestamp e < 120000) evts in
            if decide (valid = []) then None else Some valid
          | None => None
          end)
  ∧ groupConsumption (cleanup now st) = groupConsumption st
  ∧ waiters (cleanup now st) = waiters st.
Proof.
  split_and!; [|done|done].
  intros k. simpl. rewrite cleanup_events_lookup.
  by destruct (events st !! k).
Qed.

(** ** Expiry *)

Lemma cleanup_young now st : young now (cleanup now st).
Proof.
  intros k evts e Hl He. simpl in Hl. rewrite cleanup_events_lookup in Hl.
  destruct (events st !! k) as [l|]; [|done]. simpl in Hl.
  unfold swept in Hl. case_decide; [done|]. simplify_eq.
  apply list_elem_of_filter in He as [He _]. exact He.
Qed.

Lemma check_events key gk st st' evs :
  check key gk st = Some (st', evs) → events st' = events st.
Proof. intros H. apply check_Some in H as (_ & _ & ->). done. Qed.

Lemma step_young now a st :
  pushes_from now a → young now st → young now (step a st).1.
Proof.
  intros Ha Hy. destruct a as [ni rnd nt k d|k g|w|w|now']; simpl.
  - destruct (decide (missing k = true)) as [Hm|Hm].
    + by rewrite push_rejects.
    + apply not_true_is_false, missing_false in Hm as (s & -> & Hs).
      rewrite push_ok by done. intros k' evts e. simpl.
      destruct (decide (s = k')) as [<-|Hne].
      * rewrite lookup_insert_eq. intros [= <-] He.
        apply elem_of_app in He as [He|He].
        -- destruct (events st !! s) as [l|] eqn:E; [|inversion He].
           by apply (Hy s l).
        -- apply list_elem_of_singleton in He as ->. simpl in *.
           unfold EVENT_EXPIRY_MS. lia.
      * rewrite lookup_insert_ne by done. apply Hy.
  - unfold blockingGet_start. destruct k as [k|], g as [g|]; try done.
    destruct (missing (Some k) || missing (Some g)); [done|].
    destruct (check k (groupKey k g) st) as [[st1 r]|] eqn:Hc.
    + apply check_events in Hc. intros k' evts e. simpl. rewrite Hc. apply Hy.
    + done.
  - unfold timeout. case_decide; done.
  - unfold blockingGet_resume.
    destruct (promises st !! w) as [c|]; [|done].
    destruct (resolved c); [|done].
    split_check Hc; simpl.
    + apply check_events in Hc. intros k' evts e. rewrite Hc. apply Hy.
    + done.
  - intros k evts e Hl He. simpl in Hl. rewrite cleanup_events_lookup in Hl.
    destruct (events st !! k) as [l|] eqn:E; [|done]. simpl in Hl.
    unfold swept in Hl. case_decide; [done|]. simplify_eq.
    apply list_elem_of_filter in He as [_ He]. by apply (Hy k l).
Qed.

Lemma run_young_return now tr st j key groupId r e :
  Forall (pushes_from now) tr → young now st →
  (run tr st).2 !! j = Some (OReturn key groupId r) → e ∈ r →
  now - timestamp e < EVENT_EXPIRY_MS.
Proof.
  revert st j. induction tr as [|a tr IH]; intros st j Hf Hy Hj He; [done|].
  apply Forall_cons in Hf as [Ha Hf].
  rewrite run_cons in Hj. simpl in Hj. destruct j as [|j]; simpl in Hj.
  - destruct (step a st) as [st' o] eqn:Hs. simpl in Hj. simplify_eq.
    destruct (step_return _ _ _ _ _ _ _ Hs He) as (k & g & _ & _ & Hin & _).
    destruct (events st !! k) as [l|] eqn:E; [|inversion Hin].
    by apply (Hy k l).
  - apply (IH (step a st).1 j); [done | by apply step_young | done | done].
Qed.

(** C2, as the code has it.  After a sweep at time [now], and as long as
    later pushes stamp their events at [now] or later, no [blockingGet]
    returns an event that had reached the retention window at [now]:
    an event pushed at [T] with [T + 120000 ≤ now] is absent. *)
Theorem expiry_after_sweep (now : Z) (tr : list action) (st : state)
    (j : nat) (key groupId : arg) (r : list event) (e : event) :
  Forall (pushes_from now) tr →
  (run (ASweep now :: tr) st).2 !! j = Some (OReturn key groupId r) →
  e ∈ r →
  ¬ (timestamp e + 120000 ≤ now).
Proof.
  intros Hf Hj He. rewrite run_cons in Hj. destruct j as [|j]; [done|].
  simpl in Hj.
  pose proof (run_young_return now tr (cleanup now st) j key groupId r e
                Hf (cleanup_young now st) Hj He) as H.
  unfold EVENT_EXPIRY_MS in H. lia.
Qed.

Lemma expiry_after_sweep_witness :
  ¬ (timestamp (Event "k-125000-s" (VNum 2) 125000) + 120000 ≤ 121000).
Proof.
  apply (expiry_after_sweep 121000
           [APush 125000 "s" 125000 (Some "k") (VNum 2);
            AGet (Some "k") (Some "g")]
           (push 1000 "r" 1000 (Some "k") (VNum 1) init).1
           2 (Some "k") (Some "g")
           [Event "k-125000-s" (VNum 2) 125000]).
  - repeat constructor. simpl. lia.
  - vm_compute. reflexivity.
  - constructor.
Defined.

(** C2, as stated, fails.  The event is pushed at 1000 and the sweep runs
    every ten seconds; the sweep at 120000 still keeps it, and the first
    check of group [g], at 121000, returns it although
    [1000 + 120000 ≤ 121000]. *)
Lemma expired_event_still_returned :
  let e := Event "k-1000-r" (VNum 7) 1000 in
  let sched :=
    (1000, APush 1000 "r" 1000 (Some "k") (VNum 7))
    :: map (λ n, (n * 10000, ASweep (n * 10000))) [1;2;3;4;5;6;7;8;9;10;11;12]
    ++ [(121000, AGet (Some "k") (Some "g"))] in
  well_timed 0 sched = true
  ∧ (run sched.*2 init).2 !! 0%nat = Some (OPushed e [])
  ∧ timestamp e + EVENT_EXPIRY_MS ≤ 121000
  ∧ (run sched.*2 init).2 !! 13%nat = Some (OReturn (Some "k") (Some "g") [e])
  ∧ ¬ (∀ r, (run sched.*2 init).2 !! 13%nat
            = Some (OReturn (Some "k") (Some "g") r) → e ∉ r).
Proof.
  intros e sched.
  assert ((run sched.*2 init).2 !! 13%nat
          = Some (OReturn (Some "k") (Some "g") [e])) as H13
    by (vm_compute; reflexivity).
  split_and!.
  - vm_compute. reflexivity.
  - vm_compute. reflexivity.
  - vm_compute. discriminate.
  - exact H13.
  - intros H. apply (H [e] H13). constructor.
Qed.

(** ** Broadcast to distinct groups *)

Lemma getUnconsumed_ext key gk st st' :
  events st' = events st →
  groupConsumption st' !! gk = groupConsumption st !! gk →
  getUnconsumed key gk st' = getUnconsumed key gk st.
Proof. intros He Hg. unfold getUnconsumed. by rewrite He, Hg. Qed.

Lemma check_other_group key gk gk' st st' evs :
  check key gk st = Some (st', evs) → gk ≠ gk' →
  getUnconsumed key gk' st' = getUnconsumed key gk' st.
Proof.
  intros H Hne. apply check_Some in H as (_ & _ & ->).
  apply getUnconsumed_ext; [done|]. simpl. by apply markConsumed_other.
Qed.

(** The first block of another group's call does not change what this
    group's filter lets through. *)
Lemma blockingGet_start_other_group k g1 g2 st :
  g1 ≠ g2 →
  getUnconsumed k (groupKey k g1) (blockingGet_start (Some k) (Some g2) st).1
  = getUnconsumed k (groupKey k g1) st.
Proof.
  intros Hne. unfold blockingGet_start.
  destruct (missing (Some k) || missing (Some g2)); [done|].
  destruct (check k (groupKey k g2) st) as [[st1 r]|] eqn:Hc; simpl.
  - eapply check_other_group; [done|].
    intros E. by apply groupKey_inj_group in E.
  - by apply getUnconsumed_ext.
Qed.

(** Nor does the block after its [await]. *)
Lemma blockingGet_resume_other_group k g1 g2 w c st :
  g1 ≠ g2 → promises st !! w = Some c → c_key c = k → c_groupId c = g2 →
  getUnconsumed k (groupKey k g1) (blockingGet_resume w st).1
  = getUnconsumed k (groupKey k g1) st.
Proof.
  intros Hne Hw <- <-. unfold blockingGet_resume. rewrite Hw.
  destruct (resolved c); [|done].
  split_check Hc; simpl.
  - rewrite (check_other_group _ _ (groupKey (c_key c) g1) _ _ _ Hc).
    + by apply getUnconsumed_ext.
    + intros E. by apply groupKey_inj_group in E.
  - by apply getUnconsumed_ext.
Qed.

(** ** Waiters that time out *)

(** The timer callback only calls [resolve]: the registry is not touched. *)
Lemma timeout_keeps_registry w st : waiters (timeout w st).1 = waiters st.
Proof. unfold timeout. by case_decide. Qed.

(** Neither does the rest of [blockingGet] after the [await]. *)
Lemma resume_keeps_registry w st :
  waiters (blockingGet_resume w st).1 = waiters st.
Proof.
  unfold blockingGet_resume.
  destruct (promises st !! w) as [c|]; [|done].
  destruct (resolved c); [|done].
  split_check Hc; simpl; [|done].
  by apply check_waiters in Hc as [-> _].
Qed.

(** A waiter whose timer fires is still registered once its call has
    returned. *)
Lemma timed_out_waiter_remains w k ws st :
  waiters st !! k = Some ws → w ∈ ws →
  ∃ ws', waiters (blockingGet_resume w (timeout w st).1).1 !! k = Some ws'
         ∧ w ∈ ws'.
Proof.
  intros Hk Hw. rewrite resume_keeps_registry, timeout_keeps_registry. eauto.
Qed.

(** C3, on the timeout path.  [blockingGet("k", "g")] on the empty broker
    suspends as waiter 0; its timer fires and the call returns the empty
    array.  The registry still lists waiter 0 under ["k"] although its call
    is over, and the next [push("k", ...)] calls its [resolve] once more. *)
Theorem timed_out_waiter_stays_registered :
  let tr := [AGet (Some "k") (Some "g"); ATimeout 0; AResume 0] in
  (run tr init).2
    = [OAwait 0; OFired 0; OReturn (Some "k") (Some "g") []]
  ∧ waiters (run tr init).1 !! "k" = Some [0%nat]
  ∧ promises (run tr init).1 !! 0%nat = None
  ∧ (run (tr ++ [APush 5 "r" 5 (Some "k") (VNum 1)]) init).2 !! 3%nat
    = Some (OPushed (pushed_event 5 "r" 5 "k" (VNum 1)) [0%nat]).
Proof. vm_compute. split_and!; reflexivity. Qed.

(** Every timed-out call adds one stale entry: after four calls on a key
    that is never pushed to, the registry holds four names. *)
Example registry_grows :
  waiters (run (timed_out_calls 4 0) init).1 !! "k"
  = Some [0%nat; 1%nat; 2%nat; 3%nat].
Proof. vm_compute. reflexivity. Qed.

(** ** The scenarios of the specification *)

(** Scenario A: push, then two calls of the same group. *)
Example scenario_A :
  (run [APush 10 "r" 10 (Some "orders") (VObj [("id", VNum 1)]);
        AGet (Some "orders") (Some "g1");
        AGet (Some "orders") (Some "g1");
        ATimeout 0; AResume 0] init).2
  = [OPushed (Event "orders-10-r" (VObj [("id", VNum 1)]) 10) [];
     OReturn (Some "orders") (Some "g1")
             [Event "orders-10-r" (VObj [("id", VNum 1)]) 10];
     OAwait 0; OFired 0;
     OReturn (Some "orders") (Some "g1") []].
Proof. vm_compute. reflexivity. Qed.

(** Scenario B: two groups wait, one push wakes both, both get the event. *)
Example scenario_B :
  (run [AGet (Some "orders") (Some "g1");
        AGet (Some "orders") (Some "g2");
        APush 10 "r" 10 (Some "orders") (VObj [("id", VNum 1)]);
        AResume 0; AResume 1] init).2
  = [OAwait 0; OAwait 1;
     OPushed (Event "orders-10-r" (VObj [("id", VNum 1)]) 10) [0%nat; 1%nat];
     OReturn (Some "orders") (Some "g1")
             [Event "orders-10-r" (VObj [("id", VNum 1)]) 10];
     OReturn (Some "orders") (Some "g2")
             [Event "orders-10-r" (VObj [("id", VNum 1)]) 10]].
Proof. vm_compute. reflexivity. Qed.

(** * Further properties of the module *)

(** ** Invariants of the reachable states *)

Lemma settle_lookup_pending (o : option call) c :
  settle <$> o = Some c → resolved c = true.
Proof. destruct o as [c0|]; [intros [= <-]; done | done]. Qed.

Lemma pending_ok_init : pending_ok init.
Proof. intros w c H. simpl in H. by rewrite lookup_empty in H. Qed.

Lemma pending_ok_step a st : pending_ok st → pending_ok (step a st).1.
Proof.
  intros Hok. destruct a as [ni rnd nt k d|k g|w0|w0|now]; simpl.
  - destruct (decide (missing k = true)) as [Hm|Hm].
    + by rewrite push_rejects.
    + apply not_true_is_false, missing_false in Hm as (s & -> & Hs).
      rewrite push_ok by done. intros w c. simpl.
      rewrite resolve_all_lookup. case_decide as Hin.
      * intros Hc%settle_lookup_pending. congruence.
      * intros Hc Hp. destruct (Hok w c Hc Hp) as (Ht & ws & Hws & Hw).
        split; [done|]. exists ws. split; [|done].
        rewrite lookup_delete_ne; [done|]. intros E.
        rewrite E, Hws in Hin. by apply Hin.
  - unfold blockingGet_start. destruct k as [k|], g as [g|]; try done.
    destruct (missing (Some k) || missing (Some g)); [done|].
    split_check Hc.
    + apply check_Some in Hc as (_ & _ & ->). exact Hok.
    + pose proof (register_waiters k g st) as Hw.
      unfold register in *. simpl in *. intros w c. simpl. rewrite Hw.
      destruct (decide (next st = w)) as [<-|Hne].
      * rewrite lookup_insert_eq. intros [= <-] _. simpl.
        split; [set_solver|]. rewrite lookup_insert_eq.
        eexists. split; [done|]. apply elem_of_app. right. constructor.
      * rewrite lookup_insert_ne by done. intros Hpc Hp.
        destruct (Hok w c Hpc Hp) as (Ht & ws & Hws & Hin).
        split; [set_solver|].
        destruct (decide (k = c_key c)) as [->|Hk].
        -- rewrite lookup_insert_eq, Hws. eexists. split; [done|].
           apply elem_of_app. by left.
        -- rewrite lookup_insert_ne by done. eauto.
  - unfold timeout. case_decide as Hin; [|done]. intros w c. simpl.
    rewrite resolve_lookup. case_decide as E.
    + intros Hc%settle_lookup_pending. congruence.
    + intros Hc Hp. destruct (Hok w c Hc Hp) as (Ht & Hr).
      split; [|done]. apply elem_of_difference. split; [done|].
      intros E'%elem_of_singleton. congruence.
  - unfold blockingGet_resume.
    destruct (promises st !! w0) as [c0|] eqn:E0; [|done].
    destruct (resolved c0); [|done].
    assert (pending_ok (State (events st) (groupConsumption st) (waiters st)
                              (delete w0 (promises st)) (timers st) (next st)))
      as Hok0.
    { intros w c. simpl. destruct (decide (w0 = w)) as [->|Hne].
      - by rewrite lookup_delete_eq.
      - rewrite lookup_delete_ne by done. apply Hok. }
    split_check Hc; simpl; [|done].
    apply check_Some in Hc as (_ & _ & ->). exact Hok0.
  - exact Hok.
Qed.

Lemma pending_ok_run tr st : pending_ok st → pending_ok (run tr st).1.
Proof.
  revert st. induction tr as [|a tr IH]; intros st Hok; [done|].
  rewrite run_cons. simpl. by apply IH, pending_ok_step.
Qed.

Lemma stores_nonempty_step a st :
  stores_nonempty st → stores_nonempty (step a st).1.
Proof.
  intros [He Hw]. destruct a as [ni rnd nt k d|k g|w0|w0|now]; simpl.
  - destruct (decide (missing k = true)) as [Hm|Hm].
    + by rewrite push_rejects.
    + apply not_true_is_false, missing_false in Hm as (s & -> & Hs).
      rewrite push_ok by done. split; simpl.
      * intros k l. destruct (decide (s = k)) as [<-|Hne].
        -- rewrite lookup_insert_eq. intros [= <-] E.
           by apply app_eq_nil in E as [_ E].
        -- rewrite lookup_insert_ne by done. apply He.
      * intros k ws. destruct (decide (s = k)) as [<-|Hne].
        -- by rewrite lookup_delete_eq.
        -- rewrite lookup_delete_ne by done. apply Hw.
  - unfold blockingGet_start. destruct k as [k|], g as [g|]; try done.
    destruct (missing (Some k) || missing (Some g)); [done|].
    split_check Hc.
    + apply check_Some in Hc as (_ & _ & ->). done.
    + pose proof (register_waiters k g st) as Hr.
      unfold register in *. simpl in *. split; simpl; [done|].
      intros k' ws. rewrite Hr. destruct (decide (k = k')) as [<-|Hne].
      * rewrite lookup_insert_eq. intros [= <-] E.
        by apply app_eq_nil in E as [_ E].
      * rewrite lookup_insert_ne by done. apply Hw.
  - unfold timeout. case_decide; done.
  - unfold blockingGet_resume.
    destruct (promises st !! w0) as [c0|]; [|done].
    destruct (resolved c0); [|done].
    split_check Hc; simpl; [|done].
    apply check_Some in Hc as (_ & _ & ->). done.
  - split; simpl; [|done]. intros k l. rewrite cleanup_events_lookup.
    destruct (events st !! k) as [l0|]; [|done]. simpl. unfold swept.
    case_decide; [done|]. by intros [= <-].
Qed.

Lemma stores_nonempty_run tr st :
  stores_nonempty st → stores_nonempty (run tr st).1.
Proof.
  revert st. induction tr as [|a tr IH]; intros st Hok; [done|].
  rewrite run_cons. simpl. by apply IH, stores_nonempty_step.
Qed.

(** X1.  In every state the module reaches, a key that is present in
    [events] holds at least one event and a key that is present in
    [waiters] holds at least one [resolve]: [push] and the promise executor
    fill the array they create, the sweep deletes a key it empties. *)
Theorem topics_never_empty (tr : list action) (k : string) :
  events (run tr init).1 !! k ≠ Some []
  ∧ waiters (run tr init).1 !! k ≠ Some [].
Proof.
  destruct (stores_nonempty_run tr init) as [He Hw].
  { split; intros k' l H; simpl in H; by rewrite lookup_empty in H. }
  split; intros H; [by eapply He | by eapply Hw].
Qed.

(** ** Wake-up and timeout *)

(** The block after the [await] returns the event if the check finds it. *)
Lemma blockingGet_resume_returns w c st e :
  promises st !! w = Some c → resolved c = true →
  e ∈ default [] (events st !! c_key c) →
  id e ∉ consumed_by (groupKey (c_key c) (c_groupId c)) (groupConsumption st) →
  ∃ st' r, blockingGet_resume w st
           = (st', OReturn (Some (c_key c)) (Some (c_groupId c)) r)
    ∧ e ∈ r.
Proof.
  intros Hw Hr He Hn. unfold blockingGet_resume. rewrite Hw, Hr.
  split_check Hc.
  - apply check_Some in Hc as (-> & _ & ->). eexists _, _. split; [done|].
    by apply getUnconsumed_elem.
  - apply check_None in Hc.
    assert (e ∈ getUnconsumed (c_key c) (groupKey (c_key c) (c_groupId c))
              (State (events st) (groupConsumption st) (waiters st)
                     (delete w (promises st)) (timers st) (next st))) as Hin
      by by apply getUnconsumed_elem.
    rewrite Hc in Hin. inversion Hin.
Qed.

(** X3 (timeout floor).  In every state the module reaches, a suspended
    [blockingGet] finishes once its timer has had its turn: after the timer
    callback and the continuation, the call has returned what
    [getUnconsumed] gives at that moment (the empty array when nothing
    arrived), and the events are as before. *)
Theorem suspended_call_can_finish (tr : list action) (w : nat) (c : call) :
  let st := (run tr init).1 in
  promises st !! w = Some c →
  (run [ATimeout w; AResume w] st).2 !! 1%nat
  = Some (OReturn (Some (c_key c)) (Some (c_groupId c))
            (getUnconsumed (c_key c) (groupKey (c_key c) (c_groupId c)) st))
  ∧ events (run [ATimeout w; AResume w] st).1 = events st
  ∧ promises (run [ATimeout w; AResume w] st).1 !! w = None.
Proof.
  intros st Hc.
  assert (pending_ok st) as Hok by apply pending_ok_run, pending_ok_init.
  set (st1 := (timeout w st).1).
  assert (events st1 = events st ∧ groupConsumption st1 = groupConsumption st
          ∧ ∃ c1, promises st1 !! w = Some c1 ∧ resolved c1 = true
              ∧ c_key c1 = c_key c ∧ c_groupId c1 = c_groupId c)
    as (He & Hg & c1 & Hc1 & Hr1 & Hk1 & Hg1).
  { subst st1. unfold timeout. case_decide as Hin; simpl.
    - split_and!; [done | done |]. exists (settle c).
      rewrite resolve_lookup, decide_True, Hc by done. done.
    - split_and!; [done | done |]. exists c. split_and!; try done.
      destruct (resolved c) eqn:E; [done|].
      by destruct (Hok w c Hc E) as [? _]. }
  rewrite !run_cons. simpl. fold st1.
  unfold blockingGet_resume. rewrite Hc1, Hr1, Hk1, Hg1.
  set (gk := groupKey (c_key c) (c_groupId c)).
  set (st0 := State (events st1) (groupConsumption st1) (waiters st1)
                    (delete w (promises st1)) (timers st1) (next st1)).
  assert (getUnconsumed (c_key c) gk st0 = getUnconsumed (c_key c) gk st) as Hu.
  { apply getUnconsumed_ext; simpl; [done | by rewrite Hg]. }
  destruct (check (c_key c) gk st0) as [[st2 r]|] eqn:Hch; simpl.
  - apply check_Some in Hch as (-> & _ & ->). simpl.
    rewrite Hu, lookup_delete_eq. done.
  - apply check_None in Hch. rewrite <- Hu, Hch, lookup_delete_eq. done.
Qed.

Lemma suspended_call_can_finish_witness :
  (run [ATimeout 0; AResume 0] (run [AGet (Some "k") (Some "g")] init).1).2
    !! 1%nat
  = Some (OReturn (Some "k") (Some "g") []).
Proof.
  destruct (suspended_call_can_finish [AGet (Some "k") (Some "g")]
              0 (Call "k" "g" false)) as [H _].
  - vm_compute. reflexivity.
  - exact H.
Defined.

(** ** What a call delivers *)

Lemma filter_all {A} (P : A → Prop) `{∀ x, Decision (P x)} (l : list A) :
  (∀ x, x ∈ l → P x) → filter P l = l.
Proof.
  induction l as [|x l IH]; intros Hall; [done|].
  rewrite filter_cons_True by (apply Hall; constructor).
  f_equal. apply IH. intros y Hy. apply Hall. by constructor.
Qed.

(** An accepted call that returns in its first block went through the
    first check. *)
Lemma blockingGet_start_return_inv k g st st' r :
  k ≠ "" → g ≠ "" →
  blockingGet_start (Some k) (Some g) st
  = (st', OReturn (Some k) (Some g) r) →
  check k (groupKey k g) st = Some (st', r).
Proof.
  intros Hk Hg. unfold blockingGet_start. simpl.
  apply String.eqb_neq in Hk, Hg. rewrite Hk, Hg. simpl.
  split_check Hc; [by intros [= <- <-]|].
  unfold register. intros [=].
Qed.

(** An accepted call whose first check finds nothing suspends. *)
Lemma blockingGet_start_suspends k g st :
  k ≠ "" → g ≠ "" → getUnconsumed k (groupKey k g) st = [] →
  blockingGet_start (Some k) (Some g) st
  = ((register k g st).1, OAwait (next st)).
Proof.
  intros Hk Hg Hu. unfold blockingGet_start. simpl.
  apply String.eqb_neq in Hk, Hg. rewrite Hk, Hg. simpl.
  apply check_None in Hu. by rewrite Hu.
Qed.

(** X4.  A group without a consumption record gets the whole backlog: its
    [blockingGet] on a key that holds events returns all of them, in the
    order of the store, and records exactly their ids. *)
Theorem new_group_gets_backlog (k g : string) (st : state) (l : list event) :
  k ≠ "" → g ≠ "" →
  events st !! k = Some l → l ≠ [] →
  groupConsumption st !! groupKey k g = None →
  ∃ st', blockingGet_start (Some k) (Some g) st
         = (st', OReturn (Some k) (Some g) l)
    ∧ ∀ x, x ∈ consumed_by (groupKey k g) (groupConsumption st')
           ↔ ∃ e, e ∈ l ∧ id e = x.
Proof.
  intros Hk Hg Hl Hne Hgc.
  assert (getUnconsumed k (groupKey k g) st = l) as Hu.
  { unfold getUnconsumed. rewrite Hl, Hgc. simpl.
    apply filter_all. intros x _. apply not_elem_of_empty. }
  destruct l as [|e l']; [done|].
  destruct (blockingGet_start_returns k g st e)
    as (st' & r & Hs & Hr & _ & _ & Hgc'); [done | done | | |].
  - rewrite Hl. constructor.
  - unfold consumed_by. rewrite Hgc. apply not_elem_of_empty.
  - rewrite Hu in Hr. subst r. exists st'. split; [done|].
    intros x. rewrite Hgc', markConsumed_same. unfold consumed_by.
    rewrite Hgc. simpl. split; [intros [H|H]; [by apply not_elem_of_empty in H | done] | by right].
Qed.

Lemma new_group_gets_backlog_witness :
  let st := (run [APush 1 "a" 1 (Some "k") (VNum 1);
                  APush 2 "b" 2 (Some "k") (VNum 2)] init).1 in
  ∃ st', blockingGet_start (Some "k") (Some "g") st
         = (st', OReturn (Some "k") (Some "g")
                   [Event "k-1-a" (VNum 1) 1; Event "k-2-b" (VNum 2) 2]).
Proof.
  destruct (new_group_gets_backlog "k" "g"
              (run [APush 1 "a" 1 (Some "k") (VNum 1);
                    APush 2 "b" 2 (Some "k") (VNum 2)] init).1
              [Event "k-1-a" (VNum 1) 1; Event "k-2-b" (VNum 2) 2])
    as (st' & H & _).
  - discriminate.
  - discriminate.
  - vm_compute. reflexivity.
  - discriminate.
  - vm_compute. reflexivity.
  - exists st'. exact H.
Defined.

(** X5.  A group that has just been served blocks on its next call: right
    after a [blockingGet] returned events, the same [blockingGet] finds
    nothing unconsumed and suspends as a new waiter. *)
Theorem drained_group_blocks (k g : string) (st st' : state)
    (r : list event) :
  k ≠ "" → g ≠ "" →
  blockingGet_start (Some k) (Some g) st
  = (st', OReturn (Some k) (Some g) r) →
  getUnconsumed k (groupKey k g) st' = []
  ∧ blockingGet_start (Some k) (Some g) st'
    = ((register k g st').1, OAwait (next st')).
Proof.
  intros Hk Hg Hs.
  apply blockingGet_start_return_inv in Hs; [|done|done].
  apply check_Some in Hs as (Hr & _ & Hst).
  assert (getUnconsumed k (groupKey k g) st' = []) as Hu.
  { apply elem_of_nil_inv. intros e He.
    apply getUnconsumed_elem in He as [Hin Hn]. apply Hn.
    rewrite Hst in Hin |- *. simpl in *. apply markConsumed_same.
    destruct (decide (id e ∈ consumed_by (groupKey k g) (groupConsumption st)))
      as [Hc|Hc]; [by left|].
    right. exists e. split; [|done]. rewrite Hr. by apply getUnconsumed_elem. }
  split; [done|]. by apply blockingGet_start_suspends.
Qed.

Lemma drained_group_blocks_witness :
  let st := (push 1 "a" 1 (Some "k") (VNum 1) init).1 in
  let st' := (blockingGet_start (Some "k") (Some "g") st).1 in
  blockingGet_start (Some "k") (Some "g") st'
  = ((register "k" "g" st').1, OAwait (next st')).
Proof.
  destruct (drained_group_blocks "k" "g"
              (push 1 "a" 1 (Some "k") (VNum 1) init).1
              (blockingGet_start (Some "k") (Some "g")
                 (push 1 "a" 1 (Some "k") (VNum 1) init).1).1
              [Event "k-1-a" (VNum 1) 1]) as [_ H].
  - discriminate.
  - discriminate.
  - vm_compute. reflexivity.
  - exact H.
Defined.

(** X6.  What a [push] changes for a group: the pushed event is appended
    to the group's unconsumed events, unless the group's consumed set
    already holds its id, in which case the group never sees it. *)
Theorem push_extends_unconsumed (now_id : Z) (rnd : string) (now_ts : Z)
    (k : string) (d : value) (st : state) (gk : string) :
  k ≠ "" →
  let e := pushed_event now_id rnd now_ts k d in
  getUnconsumed k gk (push now_id rnd now_ts (Some k) d st).1
  = getUnconsumed k gk st
    ++ (if decide (id e ∈ consumed_by gk (groupConsumption st))
        then [] else [e]).
Proof.
  intros Hk e. rewrite push_ok by done. unfold getUnconsumed. simpl.
  rewrite lookup_insert_eq. simpl. rewrite filter_app. f_equal.
  fold e. unfold consumed_by. case_decide as Hin.
  - by rewrite filter_cons_False by (intros Hn; by apply Hn).
  - by rewrite filter_cons_True by done.
Qed.

Lemma push_extends_unconsumed_witness :
  getUnconsumed "k" "k:g" (push 1 "a" 1 (Some "k") (VNum 1) init).1
  = getUnconsumed "k" "k:g" init
    ++ (if decide (id (pushed_event 1 "a" 1 "k" (VNum 1))
                   ∈ consumed_by "k:g" (groupConsumption init))
        then [] else [pushed_event 1 "a" 1 "k" (VNum 1)]).
Proof. apply (push_extends_unconsumed 1 "a" 1 "k" (VNum 1) init "k:g"). discriminate. Defined.

(** ** [markConsumed] *)

Lemma markConsumed_lookup gk evs gc :
  markConsumed gk evs gc !! gk
  = Some (consumed_by gk gc ∪ list_to_set (id <$> evs)).
Proof.
  assert (is_Some (markConsumed gk evs gc !! gk)) as [s Hs].
  { unfold markConsumed. rewrite lookup_insert_eq. eauto. }
  rewrite Hs. f_equal. apply set_eq. intros x.
  pose proof (markConsumed_same gk evs gc x) as H.
  unfold consumed_by in H at 1. rewrite Hs in H. simpl in H. rewrite H.
  rewrite elem_of_union, elem_of_list_to_set, list_elem_of_fmap.
  split; (intros [?|(e & ? & ?)]; [by left | right; exists e; split; done]).
Qed.

(** X7.  [markConsumed] creates the record of its key if needed, adds the
    ids of the given events to it, leaves every other record alone, and
    marking the same events again changes nothing. *)
Theorem markConsumed_idempotent (gk : string) (evs : list event)
    (gc : gmap string (gset string)) :
  markConsumed gk evs gc
  = <[gk := consumed_by gk gc ∪ list_to_set (id <$> evs)]> gc
  ∧ markConsumed gk evs (markConsumed gk evs gc) = markConsumed gk evs gc.
Proof.
  assert (∀ gc', markConsumed gk evs gc'
                 = <[gk := consumed_by gk gc' ∪ list_to_set (id <$> evs)]> gc')
    as Hform.
  { intros gc'. apply map_eq. intros i. destruct (decide (gk = i)) as [<-|Hne].
    - by rewrite markConsumed_lookup, lookup_insert_eq.
    - by rewrite markConsumed_other, lookup_insert_ne. }
  split; [apply Hform|].
  rewrite (Hform (markConsumed gk evs gc)).
  unfold consumed_by at 1. rewrite markConsumed_lookup. simpl.
  rewrite Hform, insert_insert_eq. f_equal.
  apply set_eq. intros x. rewrite !elem_of_union. tauto.
Qed.

(** ** More on the retention sweep *)

Lemma filter_filter_absorb {A} (P Q : A → Prop)
    `{∀ x, Decision (P x)} `{∀ x, Decision (Q x)} (l : list A) :
  (∀ x, Q x → P x) → filter Q (filter P l) = filter Q l.
Proof.
  intros HQP. induction l as [|x l IH]; [done|].
  rewrite (filter_cons P). destruct (decide (P x)) as [HP|HP].
  - rewrite !(filter_cons Q). by rewrite IH.
  - rewrite (filter_cons_False Q x l) by (intros HQ; by apply HP, HQP). done.
Qed.

Lemma filter_filter_comm {A} (P Q : A → Prop)
    `{∀ x, Decision (P x)} `{∀ x, Decision (Q x)} (l : list A) :
  filter Q (filter P l) = filter P (filter Q l).
Proof.
  induction l as [|x l IH]; [done|].
  rewrite (filter_cons P), (filter_cons Q).
  destruct (decide (P x)) as [HP|HP], (decide (Q x)) as [HQ|HQ];
    rewrite ?(filter_cons_True Q x) by done;
    rewrite ?(filter_cons_False Q x) by done;
    rewrite ?(filter_cons_True P x) by done;
    rewrite ?(filter_cons_False P x) by done;
    by rewrite IH.
Qed.

Lemma swept_default now (o : option (list event)) :
  default [] (o ≫= swept now)
  = filter (λ e, now - timestamp e < 120000) (default [] o).
Proof.
  destruct o as [l|]; simpl; [|done]. unfold swept. by case_decide as E; [rewrite E|].
Qed.

(** X8.  A sweep makes every earlier sweep redundant: sweeping at [now1]
    and then at a later [now2] leaves the state that the sweep at [now2]
    alone leaves.  In particular a second sweep at the same time changes
    nothing. *)
Theorem cleanup_later_absorbs (now1 now2 : Z) (st : state) :
  now1 ≤ now2 →
  cleanup now2 (cleanup now1 st) = cleanup now2 st.
Proof.
  intros Hle. unfold cleanup. simpl. f_equal.
  apply map_eq. intros k. rewrite !cleanup_events_lookup.
  destruct (events st !! k) as [l|]; [|done]. simpl.
  pose proof (filter_filter_absorb
                (λ e, now1 - timestamp e < 120000)
                (λ e, now2 - timestamp e < 120000) l) as Habs.
  unfold swept at 2. case_decide as E1; simpl.
  - unfold swept. rewrite decide_True; [done|].
    rewrite <- Habs by (intros; lia). by rewrite E1.
  - unfold swept. by rewrite Habs by (intros; lia).
Qed.

Lemma cleanup_later_absorbs_witness :
  let st := (push 1000 "r" 1000 (Some "k") (VNum 1) init).1 in
  cleanup 130000 (cleanup 60000 st) = cleanup 130000 st.
Proof. apply cleanup_later_absorbs. lia. Defined.

(** X9.  The sweep and the consumption filter commute: after a sweep at
    [now], what a group has not consumed is what it had not consumed
    before, restricted to the events with [now - timestamp < 120000], in the
    same order.  The sweep neither hides a retained event from a group nor
    shows it a consumed one. *)
Theorem cleanup_then_unconsumed (now : Z) (k gk : string) (st : state) :
  getUnconsumed k gk (cleanup now st)
  = filter (λ e, now - timestamp e < 120000) (getUnconsumed k gk st).
Proof.
  unfold getUnconsumed. simpl. rewrite cleanup_events_lookup, swept_default.
  apply filter_filter_comm.
Qed.

(** ** What the blocks never do *)

Lemma markConsumed_grows gk gk' evs gc s :
  gc !! gk' = Some s →
  ∃ s', markConsumed gk evs gc !! gk' = Some s' ∧ s ⊆ s'.
Proof.
  intros Hs. destruct (decide (gk = gk')) as [->|Hne].
  - rewrite markConsumed_lookup. eexists. split; [done|].
    unfold consumed_by. rewrite Hs. simpl. apply union_subseteq_l.
  - rewrite markConsumed_other by done. eauto.
Qed.

Lemma step_record_grows a st gk s :
  groupConsumption st !! gk = Some s →
  ∃ s', groupConsumption (step a st).1 !! gk = Some s' ∧ s ⊆ s'.
Proof.
  intros Hs. destruct a as [ni rnd nt k d|k g|w|w|now]; simpl.
  - unfold push. destruct k as [k|]; [|eauto].
    destruct (missing (Some k)); [eauto|].
    destruct (waiters st !! k); simpl; eauto.
  - unfold blockingGet_start.
    destruct k as [k|], g as [g|]; try (simpl; by eauto).
    destruct (missing (Some k) || missing (Some g)); [eauto|].
    split_check Hc; simpl.
    + apply check_Some in Hc as (_ & _ & ->). simpl.
      by apply markConsumed_grows.
    + eauto.
  - unfold timeout. case_decide; simpl; eauto.
  - unfold blockingGet_resume.
    destruct (promises st !! w) as [c|]; [|eauto].
    destruct (resolved c); [|eauto].
    split_check Hc; simpl.
    + apply check_Some in Hc as (_ & _ & ->). simpl.
      by apply markConsumed_grows.
    + eauto.
  - eauto.
Qed.

(** X10.  Consumption records only grow.  Over any schedule, sweeps
    included, a record that exists keeps existing and keeps every id it
    holds: the ids of events that the sweep has removed stay recorded. *)
Theorem consumption_only_grows (tr : list action) (st : state)
    (gk : string) (s : gset string) :
  groupConsumption st !! gk = Some s →
  ∃ s', groupConsumption (run tr st).1 !! gk = Some s' ∧ s ⊆ s'.
Proof.
  revert st s. induction tr as [|a tr IH]; intros st s Hs; [eauto|].
  rewrite run_cons. simpl.
  destruct (step_record_grows a st gk s Hs) as (s1 & Hs1 & Hsub1).
  destruct (IH _ _ Hs1) as (s2 & Hs2 & Hsub2).
  exists s2. split; [done|]. by transitivity s1.
Qed.

Lemma consumption_only_grows_witness :
  let st := (run [APush 1000 "r" 1000 (Some "k") (VNum 1);
                  AGet (Some "k") (Some "g")] init).1 in
  ∃ s', groupConsumption (run [ASweep 500000] st).1 !! "k:g" = Some s'
        ∧ ({[ "k-1000-r" ]} : gset string) ⊆ s'.
Proof.
  apply (consumption_only_grows [ASweep 500000]
           (run [APush 1000 "r" 1000 (Some "k") (VNum 1);
                 AGet (Some "k") (Some "g")] init).1 "k:g" {[ "k-1000-r" ]}).
  vm_compute. reflexivity.
Defined.

Lemma step_waiters_prefix a st k :
  ¬ is_push_on k a →
  default [] (waiters st !! k)
  `prefix_of` default [] (waiters (step a st).1 !! k).
Proof.
  intros Ha. destruct a as [ni rnd nt k' d|k' g|w|w|now]; simpl.
  - destruct (decide (missing k' = true)) as [Hm|Hm].
    + by rewrite push_rejects.
    + apply not_true_is_false, missing_false in Hm as (s & -> & Hs).
      rewrite push_ok by done. simpl. simpl in Ha.
      by rewrite lookup_delete_ne.
  - unfold blockingGet_start. destruct k' as [k'|], g as [g|]; try done.
    destruct (missing (Some k') || missing (Some g)); [done|].
    split_check Hc.
    + apply check_Some in Hc as (_ & _ & ->). done.
    + pose proof (register_waiters k' g st) as Hr.
      destruct (register k' g st) as [st1 w]. simpl in *. rewrite Hr.
      destruct (decide (k' = k)) as [->|Hne].
      * rewrite lookup_insert_eq. simpl. by apply prefix_app_r.
      * by rewrite lookup_insert_ne.
  - by rewrite timeout_keeps_registry.
  - by rewrite resume_keeps_registry.
  - done.
Qed.

(** X11.  Only a [push] under [k] takes waiters off the registry of [k].
    Over any schedule without such a [push] (timers firing, calls
    returning, sweeps, pushes under other keys) the array registered under
    [k] keeps every entry, in place; new waiters go to its end. *)
Theorem only_push_removes_waiters (tr : list action) (st : state)
    (k : string) :
  Forall (λ a, ¬ is_push_on k a) tr →
  default [] (waiters st !! k)
  `prefix_of` default [] (waiters (run tr st).1 !! k).
Proof.
  revert st. induction tr as [|a tr IH]; intros st Hf; [done|].
  apply Forall_cons in Hf as [Ha Hf]. rewrite run_cons. simpl.
  etransitivity; [by apply step_waiters_prefix | by apply IH].
Qed.

Lemma only_push_removes_waiters_witness :
  let st := (run [AGet (Some "k") (Some "g")] init).1 in
  default [] (waiters st !! "k")
  `prefix_of`
  default [] (waiters (run [ATimeout 0; AResume 0; ASweep 50000;
                            APush 1 "r" 1 (Some "other") (VNum 1);
                            AGet (Some "k") (Some "h")] st).1 !! "k").
Proof.
  apply only_push_removes_waiters.
  repeat constructor; simpl; try tauto. discriminate.
Defined.

Lemma step_events_prefix a st k :
  ¬ is_sweep a →
  default [] (events st !! k)
  `prefix_of` default [] (events (step a st).1 !! k).
Proof.
  intros Ha. destruct a as [ni rnd nt k' d|k' g|w|w|now]; simpl.
  - destruct (decide (missing k' = true)) as [Hm|Hm].
    + by rewrite push_rejects.
    + apply not_true_is_false, missing_false in Hm as (s & -> & Hs).
      rewrite push_ok by done. simpl.
      destruct (decide (s = k)) as [->|Hne].
      * rewrite lookup_insert_eq. simpl. by apply prefix_app_r.
      * by rewrite lookup_insert_ne.
  - unfold blockingGet_start. destruct k' as [k'|], g as [g|]; try done.
    destruct (missing (Some k') || missing (Some g)); [done|].
    split_check Hc.
    + apply check_Some in Hc as (_ & _ & ->). done.
    + done.
  - unfold timeout. by case_decide.
  - unfold blockingGet_resume.
    destruct (promises st !! w) as [c|]; [|done].
    destruct (resolved c); [|done].
    split_check Hc; simpl; [|done].
    apply check_Some in Hc as (_ & _ & ->). done.
  - by destruct Ha.
Qed.

(** X12.  Only the sweep takes events out of the store.  Over any
    schedule without a sweep, the events held under a key stay where they
    are, whatever the groups consume; pushes add at the end. *)
Theorem only_sweep_removes_events (tr : list action) (st : state)
    (k : string) :
  Forall (λ a, ¬ is_sweep a) tr →
  default [] (events st !! k)
  `prefix_of` default [] (events (run tr st).1 !! k).
Proof.
  revert st. induction tr as [|a tr IH]; intros st Hf; [done|].
  apply Forall_cons in Hf as [Ha Hf]. rewrite run_cons. simpl.
  etransitivity; [by apply step_events_prefix | by apply IH].
Qed.

Lemma only_sweep_removes_events_witness :
  let st := (push 1 "a" 1 (Some "k") (VNum 1) init).1 in
  default [] (events st !! "k")
  `prefix_of`
  default [] (events (run [AGet (Some "k") (Some "g");
                           APush 2 "b" 2 (Some "k") (VNum 2);
                           AGet (Some "k") (Some "h")] st).1 !! "k").
Proof.
  apply only_sweep_removes_events. repeat constructor; simpl; tauto.
Defined.

(** ** The two template literals *)

Lemma occurs_append c s1 s2 : occurs c (s1 +:+ String c s2) = true.
Proof.
  induction s1 as [|a s1 IH]; simpl.
  - by rewrite decide_True.
  - case_decide; [done | exact IH].
Qed.

(** Splitting at the last occurrence of [c]. *)
Lemma split_at_last c a1 a2 r1 r2 :
  occurs c r1 = false → occurs c r2 = false →
  a1 +:+ String c r1 = a2 +:+ String c r2 → a1 = a2 ∧ r1 = r2.
Proof.
  intros H1 H2. revert a2. induction a1 as [|x a1 IH]; intros [|y a2]; simpl.
  - by intros [= ->].
  - intros [= -> ->]. by rewrite occurs_append in H1.
  - intros [= -> <-]. by rewrite occurs_append in H2.
  - intros [= -> E]. by destruct (IH _ E) as [-> ->].
Qed.

(** Splitting at the first occurrence of [c]. *)
Lemma split_at_first c a1 a2 r1 r2 :
  occurs c a1 = false → occurs c a2 = false →
  a1 +:+ String c r1 = a2 +:+ String c r2 → a1 = a2 ∧ r1 = r2.
Proof.
  revert a2. induction a1 as [|x a1 IH]; intros [|y a2]; simpl.
  - by intros _ _ [= ->].
  - intros _ H2 [= <- _]. by rewrite decide_True in H2.
  - intros H1 _ [= -> _]. by rewrite decide_True in H1.
  - intros H1 H2 [= -> E]. case_decide; [done|].
    by destruct (IH _ H1 H2 E) as [-> ->].
Qed.

Lemma append_assoc (a b c : string) : (a +:+ b) +:+ c = a +:+ (b +:+ c).
Proof.
  induction a as [|x a IH]; [done|].
  change (String x ((a +:+ b) +:+ c) = String x (a +:+ (b +:+ c))).
  by f_equal.
Qed.

Lemma pretty_N_go_no_dash (x : N) (s : string) :
  occurs "-"%char s = false → occurs "-"%char (pretty_N_go x s) = false.
Proof.
  revert s. induction (N.lt_wf_0 x) as [x _ IH]; intros s Hs.
  assert (x = 0 ∨ 0 < x)%N as [->|Hx] by lia.
  - by rewrite pretty_N_go_0.
  - rewrite pretty_N_go_step by done. apply IH; [by apply N.div_lt|].
    simpl. rewrite decide_False; [done|].
    unfold pretty_N_char. by repeat case_match.
Qed.

Lemma pretty_Z_no_dash (n : Z) : 0 ≤ n → occurs "-"%char (pretty n) = false.
Proof.
  intros Hn. destruct n as [|p|p]; [done | | lia].
  unfold pretty, pretty_Z, pretty, pretty_positive, pretty, pretty_N.
  rewrite decide_False by done. by apply pretty_N_go_no_dash.
Qed.

(** X13.  Event ids name their event.  With the clock at or after the
    epoch and a random suffix without ["-"] (which base-36 digits are), two
    ids are equal only if key, clock reading and suffix all are; under one
    key the clock may even be negative. *)
Theorem make_id_inj (k1 k2 : string) (n1 n2 : Z) (r1 r2 : string) :
  occurs "-"%char r1 = false → occurs "-"%char r2 = false →
  make_id k1 n1 r1 = make_id k2 n2 r2 →
  r1 = r2
  ∧ (k1 = k2 → n1 = n2)
  ∧ (0 ≤ n1 → 0 ≤ n2 → k1 = k2 ∧ n1 = n2).
Proof.
  intros H1 H2 E. unfold make_id in E.
  change (k1 +:+ (String "-" (pretty n1) +:+ String "-" r1)
          = k2 +:+ (String "-" (pretty n2) +:+ String "-" r2)) in E.
  rewrite <- (append_assoc k1), <- (append_assoc k2) in E.
  apply split_at_last in E as [E ->]; [|done|done].
  split; [done|]. split.
  - intros ->. apply (inj (String.append k2)) in E.
    injection E as E. by apply (inj pretty) in E.
  - intros Hn1 Hn2.
    apply split_at_last in E as [-> E]; [|by apply pretty_Z_no_dash..].
    split; [done|]. by apply (inj pretty) in E.
Qed.

Lemma make_id_inj_witness : "x" = "x" ∧ (5 = 5 → True).
Proof.
  destruct (make_id_inj "k" "k" 5 5 "x" "x") as [H _].
  - reflexivity.
  - reflexivity.
  - reflexivity.
  - split; [exact H | done].
Defined.

(** X14.  Consumption keys collide only through a [":"] in the key: for
    keys without [":"], equal consumption keys mean equal key and equal
    [groupId]; and under one key, whatever it is, distinct groups always
    get distinct consumption keys. *)
Theorem groupKey_inj (k1 k2 g1 g2 : string) :
  groupKey k1 g1 = groupKey k2 g2 →
  (k1 = k2 → g1 = g2)
  ∧ (occurs ":"%char k1 = false → occurs ":"%char k2 = false → k1 = k2 ∧ g1 = g2).
Proof.
  intros E. split.
  - intros ->. by apply groupKey_inj_group in E.
  - intros H1 H2. unfold groupKey in E.
    change (":" +:+ g1) with (String ":"%char g1) in E.
    change (":" +:+ g2) with (String ":"%char g2) in E.
    by apply split_at_first in E.
Qed.

Lemma groupKey_inj_witness : "orders" = "orders" ∧ "g1" = "g1".
Proof.
  destruct (groupKey_inj "orders" "orders" "g1" "g1") as [_ H].
  - reflexivity.
  - apply H; reflexivity.
Defined.

(** ** An immediate return *)

(** X15.  With both arguments given, a [blockingGet] that returns without
    waiting never returns the empty array: it returns events of the key,
    in the order of the store, and leaves the store and the registry as
    they were.  An immediate empty result therefore means a missing
    argument. *)
Theorem immediate_return_is_nonempty (k g : string) (st st' : state)
    (r : list event) :
  k ≠ "" → g ≠ "" →
  blockingGet_start (Some k) (Some g) st
  = (st', OReturn (Some k) (Some g) r) →
  r ≠ []
  ∧ r `sublist_of` default [] (events st !! k)
  ∧ events st' = events st
  ∧ waiters st' = waiters st.
Proof.
  intros Hk Hg Hs. apply blockingGet_start_return_inv in Hs; [|done|done].
  apply check_Some in Hs as (-> & Hne & ->).
  split_and!; [done | | done | done].
  unfold getUnconsumed. apply sublist_filter.
Qed.

Lemma immediate_return_is_nonempty_witness :
  [Event "k-1-a" (VNum 1) 1] ≠ [].
Proof.
  destruct (immediate_return_is_nonempty "k" "g"
              (push 1 "a" 1 (Some "k") (VNum 1) init).1
              (blockingGet_start (Some "k") (Some "g")
                 (push 1 "a" 1 (Some "k") (VNum 1) init).1).1
              [Event "k-1-a" (VNum 1) 1]) as [H _].
  - discriminate.
  - discriminate.
  - vm_compute. reflexivity.
  - exact H.
Defined.

(** * Delivery in arbitrary schedules *)

(** ** Consumed sets and what was handed over *)

Lemma hands_over_true gk x o :
  hands_over gk x o = true
  ↔ ∃ k g r e, o = OReturn (Some k) (Some g) r ∧ groupKey k g = gk
               ∧ e ∈ r ∧ id e = x.
Proof.
  unfold hands_over. split.
  - destruct o as [| | |[k|] [g|] r| | | |]; try done.
    intros [Hk Hx]%andb_true_iff.
    apply bool_decide_eq_true in Hk, Hx.
    apply list_elem_of_fmap in Hx as (e & -> & He). by exists k, g, r, e.
  - intros (k & g & r & e & -> & Hk & He & Hx).
    apply andb_true_iff. split; apply bool_decide_eq_true; [done|].
    apply list_elem_of_fmap. by exists e.
Qed.

Lemma hands_over_nil gk x key groupId :
  hands_over gk x (OReturn key groupId []) = false.
Proof.
  destruct (hands_over gk x (OReturn key groupId [])) eqn:E; [|done].
  apply hands_over_true in E as (k & g & r & e & [= _ _ <-] & _ & He & _).
  inversion He.
Qed.

(** The consumed set after a check that returns. *)
Lemma check_consumed_iff k g st st' r gk x :
  check k (groupKey k g) st = Some (st', r) →
  x ∈ consumed_by gk (groupConsumption st')
  ↔ x ∈ consumed_by gk (groupConsumption st)
    ∨ hands_over gk x (OReturn (Some k) (Some g) r) = true.
Proof.
  intros Hc. apply check_Some in Hc as (_ & _ & ->). cbn [groupConsumption].
  rewrite hands_over_true. destruct (decide (groupKey k g = gk)) as [<-|Hne].
  - rewrite markConsumed_same. split.
    + intros [?|(e & He & Hx)]; [by left | right]. by exists k, g, r, e.
    + intros [?|(k' & g' & r' & e & [= <- <- <-] & _ & He & Hx)];
        [by left | right; by exists e].
  - unfold consumed_by. rewrite markConsumed_other by done. split; [by left|].
    intros [?|(k' & g' & r' & e & [= <- <- <-] & Hk & _)]; [done | congruence].
Qed.

(** A block adds an id to a consumed set exactly when it hands an event
    with that id over under that consumption key. *)
Lemma step_consumed_iff a st gk x :
  x ∈ consumed_by gk (groupConsumption (step a st).1)
  ↔ x ∈ consumed_by gk (groupConsumption st)
    ∨ hands_over gk x (step a st).2 = true.
Proof.
  assert (∀ (s : state) o, groupConsumption s = groupConsumption st →
            hands_over gk x o = false →
            x ∈ consumed_by gk (groupConsumption s)
            ↔ x ∈ consumed_by gk (groupConsumption st)
              ∨ hands_over gk x o = true) as Hsame.
  { intros s o -> ->. split; [by left | by intros [?|?]]. }
  destruct a as [ni rnd nt k d|k g|w|w|now]; cbn [step].
  - unfold push. destruct k as [k|]; [|by apply Hsame].
    destruct (missing (Some k)); [by apply Hsame|].
    destruct (waiters st !! k); by apply Hsame.
  - unfold blockingGet_start.
    destruct k as [k|], g as [g|];
      try (apply Hsame; [done | apply hands_over_nil]).
    destruct (missing (Some k) || missing (Some g));
      [apply Hsame; [done | apply hands_over_nil]|].
    split_check Hc; cbn [fst snd].
    + by apply (check_consumed_iff k g st).
    + unfold register. cbn [fst snd]. by apply Hsame.
  - unfold timeout. case_decide; by apply Hsame.
  - unfold blockingGet_resume.
    destruct (promises st !! w) as [c|]; [|by apply Hsame].
    destruct (resolved c); [|by apply Hsame].
    split_check Hc; cbn [fst snd].
    + by apply (check_consumed_iff (c_key c) (c_groupId c) _ _ _ gk x) in Hc.
    + apply Hsame; [done | apply hands_over_nil].
  - by apply Hsame.
Qed.

(** Over a schedule: the consumed set is the one at the start plus the ids
    handed over under that key on the way. *)
Lemma run_consumed_iff tr st gk x :
  x ∈ consumed_by gk (groupConsumption (run tr st).1)
  ↔ x ∈ consumed_by gk (groupConsumption st)
    ∨ delivered gk x (run tr st).2 = true.
Proof.
  revert st. induction tr as [|a tr IH]; intros st.
  - simpl. split; [by left | by intros [?|?]].
  - rewrite run_cons. cbn [fst snd]. rewrite IH, step_consumed_iff.
    unfold delivered. cbn [existsb]. rewrite orb_true_iff. tauto.
Qed.

(** ** Events that are not pruned *)

Lemma step_keeps a st k e :
  keeps e a →
  e ∈ default [] (events st !! k) →
  e ∈ default [] (events (step a st).1 !! k).
Proof.
  intros Hk He.
  assert (¬ is_sweep a → e ∈ default [] (events (step a st).1 !! k)) as Hns.
  { intros Hs. destruct (step_events_prefix a st k Hs) as [l' ->].
    apply elem_of_app. by left. }
  destruct a as [ni rnd nt k' d|k' g|w|w|now]; try (apply Hns; by intros []).
  simpl in *. rewrite cleanup_events_lookup, swept_default.
  apply list_elem_of_filter. split; [|done].
  unfold EVENT_EXPIRY_MS in Hk. lia.
Qed.

Lemma run_keeps tr st k e :
  Forall (keeps e) tr →
  e ∈ default [] (events st !! k) →
  e ∈ default [] (events (run tr st).1 !! k).
Proof.
  revert st. induction tr as [|a tr IH]; intros st Hf He; [done|].
  apply Forall_cons in Hf as [Ha Hf]. rewrite run_cons. simpl.
  apply IH; [done|]. by apply step_keeps.
Qed.

(** An unconsumed id is returned as often as it is stored. *)
Lemma unconsumed_multiplicity k gk st e :
  id e ∉ consumed_by gk (groupConsumption st) →
  filter (λ e', id e' = id e) (getUnconsumed k gk st)
  = filter (λ e', id e' = id e) (default [] (events st !! k)).
Proof.
  intros Hn. unfold getUnconsumed. apply filter_filter_absorb.
  intros x ->. exact Hn.
Qed.

(** ** Broadcast, in any schedule *)

(** C6.  Let [e] be stored under [k] and not yet consumed by the distinct
    groups [g1] and [g2].  Let any blocks run ([tr1]), then [g1] call
    [blockingGet], then any blocks run again ([tr2]), then [g2] call; the
    blocks in between may push, wake, time out, serve other groups and
    sweep, as long as no sweep prunes [e] and none of them hands an event
    with the id of [e] over under the consumption key of the group that is
    still to call.  Then both calls return in their first block with [e]
    in the result, as often as it is stored; what [g1] consumed plays no
    part for [g2]; and no later return to either group carries that id.
    A call of one group never changes what the other group's filter lets
    through.  The groups are arbitrary, so the same holds in the other
    order. *)
Theorem broadcast_to_groups (st : state) (tr1 tr2 : list action)
    (k g1 g2 : string) (e : event) :
  k ≠ "" → g1 ≠ "" → g2 ≠ "" → g1 ≠ g2 →
  let s1 := (run tr1 st).1 in
  let s2 := (blockingGet_start (Some k) (Some g1) s1).1 in
  let s3 := (run tr2 s2).1 in
  let s4 := (blockingGet_start (Some k) (Some g2) s3).1 in
  e ∈ default [] (events st !! k) →
  Forall (keeps e) tr1 → Forall (keeps e) tr2 →
  id e ∉ consumed_by (groupKey k g1) (groupConsumption st) →
  id e ∉ consumed_by (groupKey k g2) (groupConsumption st) →
  delivered (groupKey k g1) (id e) (run tr1 st).2 = false →
  delivered (groupKey k g2) (id e) (run tr1 st).2 = false →
  delivered (groupKey k g2) (id e) (run tr2 s2).2 = false →
  (∀ s, getUnconsumed k (groupKey k g1)
          (blockingGet_start (Some k) (Some g2) s).1
        = getUnconsumed k (groupKey k g1) s)
  ∧ (∀ s w c, promises s !! w = Some c → c_key c = k → c_groupId c = g2 →
       getUnconsumed k (groupKey k g1) (blockingGet_resume w s).1
       = getUnconsumed k (groupKey k g1) s)
  ∧ ∃ r1 r2,
      (blockingGet_start (Some k) (Some g1) s1).2
      = OReturn (Some k) (Some g1) r1
      ∧ (blockingGet_start (Some k) (Some g2) s3).2
        = OReturn (Some k) (Some g2) r2
      ∧ e ∈ r1 ∧ e ∈ r2
      ∧ filter (λ e', id e' = id e) r1
        = filter (λ e', id e' = id e) (default [] (events s1 !! k))
      ∧ filter (λ e', id e' = id e) r2
        = filter (λ e', id e' = id e) (default [] (events s3 !! k))
      ∧ (∀ tr j r e',
           (run tr s2).2 !! j = Some (OReturn (Some k) (Some g1) r) →
           e' ∈ r → id e' ≠ id e)
      ∧ (∀ tr j r e',
           (run tr s4).2 !! j = Some (OReturn (Some k) (Some g2) r) →
           e' ∈ r → id e' ≠ id e).
Proof.
  intros Hk Hg1 Hg2 Hne s1 s2 s3 s4 He Hk1 Hk2 Hn1 Hn2 Hd1 Hd2 Hd3.
  split; [intros s; by apply blockingGet_start_other_group|].
  split; [intros s w c; by apply blockingGet_resume_other_group|].
  assert (groupKey k g1 ≠ groupKey k g2) as Hgk
    by (intros E; by apply groupKey_inj_group in E).
  (* the call of [g1] *)
  assert (e ∈ default [] (events s1 !! k)) as He1 by by apply run_keeps.
  assert (id e ∉ consumed_by (groupKey k g1) (groupConsumption s1)) as Hn1'.
  { subst s1. rewrite run_consumed_iff, Hd1. by intros [?|?]. }
  assert (id e ∉ consumed_by (groupKey k g2) (groupConsumption s1)) as Hn2'.
  { subst s1. rewrite run_consumed_iff, Hd2. by intros [?|?]. }
  destruct (blockingGet_start_returns k g1 s1 e Hk Hg1 He1 Hn1')
    as (s2' & r1 & Hs1 & Hr1 & Hin1 & Hev2 & Hgc2).
  assert (s2 = s2') as Es2 by (subst s2; by rewrite Hs1).
  (* the call of [g2] *)
  assert (e ∈ default [] (events s3 !! k)) as He3.
  { apply run_keeps; [done|]. by rewrite Es2, Hev2. }
  assert (id e ∉ consumed_by (groupKey k g2) (groupConsumption s3)) as Hn3.
  { subst s3. rewrite run_consumed_iff, Hd3. intros [Hc|?]; [|done].
    rewrite Es2, Hgc2 in Hc. unfold consumed_by in Hc.
    by rewrite markConsumed_other in Hc. }
  destruct (blockingGet_start_returns k g2 s3 e Hk Hg2 He3 Hn3)
    as (s4' & r2 & Hs2 & Hr2 & Hin2 & Hev4 & Hgc4).
  assert (s4 = s4') as Es4 by (subst s4; by rewrite Hs2).
  exists r1, r2. rewrite Hs1, Hs2. split_and!; try done.
  - rewrite Hr1. by apply unconsumed_multiplicity.
  - rewrite Hr2. by apply unconsumed_multiplicity.
  - intros tr j r e' Hj He'.
    apply (run_return_fresh tr s2 k g1 (id e) j r e'); [|done|done].
    rewrite Es2, Hgc2. apply markConsumed_same. right. eauto.
  - intros tr j r e' Hj He'.
    apply (run_return_fresh tr s4 k g2 (id e) j r e'); [|done|done].
    rewrite Es4, Hgc4. apply markConsumed_same. right. eauto.
Qed.

Lemma broadcast_to_groups_witness :
  let e := pushed_event 10 "r" 10 "orders" (VNum 1) in
  let st := (run [AGet (Some "orders") (Some "g3");
                  APush 10 "r" 10 (Some "orders") (VNum 1)] init).1 in
  let tr1 := [AResume 0; AGet (Some "orders") (Some "g3"); ATimeout 1] in
  let tr2 := [ASweep 60000; APush 70000 "s" 70000 (Some "orders") (VNum 2);
              AGet (Some "orders") (Some "g1"); AResume 1] in
  let s1 := (run tr1 st).1 in
  let s2 := (blockingGet_start (Some "orders") (Some "g1") s1).1 in
  let s3 := (run tr2 s2).1 in
  ∃ r1 r2,
    (blockingGet_start (Some "orders") (Some "g1") s1).2
    = OReturn (Some "orders") (Some "g1") r1
    ∧ (blockingGet_start (Some "orders") (Some "g2") s3).2
      = OReturn (Some "orders") (Some "g2") r2
    ∧ e ∈ r1 ∧ e ∈ r2.
Proof.
  destruct (broadcast_to_groups
              (run [AGet (Some "orders") (Some "g3");
                    APush 10 "r" 10 (Some "orders") (VNum 1)] init).1
              [AResume 0; AGet (Some "orders") (Some "g3"); ATimeout 1]
              [ASweep 60000; APush 70000 "s" 70000 (Some "orders") (VNum 2);
               AGet (Some "orders") (Some "g1"); AResume 1]
              "orders" "g1" "g2" (pushed_event 10 "r" 10 "orders" (VNum 1)))
    as (_ & _ & r1 & r2 & H1 & H2 & H3 & H4 & _).
  - discriminate.
  - discriminate.
  - discriminate.
  - discriminate.
  - vm_compute. constructor.
  - repeat constructor.
  - repeat constructor.
  - vm_compute. intros H. discriminate H.
  - vm_compute. intros H. discriminate H.
  - vm_compute. reflexivity.
  - vm_compute. reflexivity.
  - vm_compute. reflexivity.
  - exists r1, r2. split_and!; assumption.
Defined.

(** ** Wake-up, in any schedule *)

Lemma names_ok_init : names_ok init.
Proof. intros w c H. simpl in H. by rewrite lookup_empty in H. Qed.

Lemma resolve_names w ps (n : nat) :
  (∀ w' c, ps !! w' = Some c → (w' < n)%nat) →
  ∀ w' c, resolve w ps !! w' = Some c → (w' < n)%nat.
Proof.
  intros Hok w' c. rewrite resolve_lookup. case_decide; [|apply Hok].
  destruct (ps !! w') as [c0|] eqn:E; [|done]. intros _. by apply (Hok w' c0).
Qed.

Lemma names_ok_step a st : names_ok st → names_ok (step a st).1.
Proof.
  intros Hok. destruct a as [ni rnd nt k d|k g|w0|w0|now]; simpl.
  - destruct (decide (missing k = true)) as [Hm|Hm].
    + by rewrite push_rejects.
    + apply not_true_is_false, missing_false in Hm as (s & -> & Hs).
      rewrite push_ok by done. intros w c. simpl.
      rewrite resolve_all_lookup. case_decide; [|apply Hok].
      destruct (promises st !! w) as [c0|] eqn:E; [|done].
      intros _. by apply (Hok w c0).
  - unfold blockingGet_start. destruct k as [k|], g as [g|]; try done.
    destruct (missing (Some k) || missing (Some g)); [done|].
    split_check Hc.
    + apply check_Some in Hc as (_ & _ & ->). exact Hok.
    + unfold register. intros w c. simpl.
      destruct (decide (next st = w)) as [<-|Hne]; [lia|].
      rewrite lookup_insert_ne by done. intros H%Hok. lia.
  - unfold timeout. case_decide; [|done]. intros w c. simpl.
    by apply resolve_names.
  - unfold blockingGet_resume.
    destruct (promises st !! w0) as [c0|]; [|done].
    destruct (resolved c0); [|done].
    assert (names_ok (State (events st) (groupConsumption st) (waiters st)
                            (delete w0 (promises st)) (timers st) (next st)))
      as Hok0.
    { intros w c. simpl. destruct (decide (w0 = w)) as [->|Hne].
      - by rewrite lookup_delete_eq.
      - rewrite lookup_delete_ne by done. apply Hok. }
    split_check Hc; simpl; [|done].
    apply check_Some in Hc as (_ & _ & ->). exact Hok0.
  - exact Hok.
Qed.

Lemma names_ok_run tr st : names_ok st → names_ok (run tr st).1.
Proof.
  revert st. induction tr as [|a tr IH]; intros st Hok; [done|].
  rewrite run_cons. simpl. by apply IH, names_ok_step.
Qed.

Lemma settle_resolved c : resolved c = true → settle c = c.
Proof. destruct c as [k g r]. simpl. by intros ->. Qed.

(** A settled call stays as it is until its own continuation runs. *)
Lemma step_settled_stays a st w c :
  names_ok st → promises st !! w = Some c → resolved c = true →
  a ≠ AResume w →
  promises (step a st).1 !! w = Some c.
Proof.
  intros Hok Hc Hr Ha. destruct a as [ni rnd nt k d|k g|w0|w0|now]; simpl.
  - destruct (decide (missing k = true)) as [Hm|Hm].
    + by rewrite push_rejects.
    + apply not_true_is_false, missing_false in Hm as (s & -> & Hs).
      rewrite push_ok by done. simpl. rewrite resolve_all_lookup, Hc.
      case_decide; [simpl; by rewrite settle_resolved | done].
  - unfold blockingGet_start. destruct k as [k|], g as [g|]; try done.
    destruct (missing (Some k) || missing (Some g)); [done|].
    split_check Hch.
    + by apply check_Some in Hch as (_ & _ & ->).
    + unfold register. simpl. apply Hok in Hc as Hlt.
      rewrite lookup_insert_ne by lia. done.
  - unfold timeout. case_decide; [|done]. simpl. rewrite resolve_lookup, Hc.
    case_decide; [simpl; by rewrite settle_resolved | done].
  - assert (w0 ≠ w) as Hne by congruence.
    unfold blockingGet_resume.
    destruct (promises st !! w0) as [c0|]; [|done].
    destruct (resolved c0); [|done].
    split_check Hch; simpl.
    + apply check_Some in Hch as (_ & _ & ->). simpl.
      by rewrite lookup_delete_ne.
    + by rewrite lookup_delete_ne.
  - done.
Qed.

Lemma run_settled_stays tr st w c :
  names_ok st → promises st !! w = Some c → resolved c = true →
  Forall (λ a, a ≠ AResume w) tr →
  promises (run tr st).1 !! w = Some c.
Proof.
  revert st. induction tr as [|a tr IH]; intros st Hok Hc Hr Hf; [done|].
  apply Forall_cons in Hf as [Ha Hf]. rewrite run_cons. simpl.
  apply IH; [by apply names_ok_step | by apply step_settled_stays | done | done].
Qed.

(** X2 (no lost wake-up).  In every state the module reaches, after a
    successful [push] under [k] every [blockingGet] still suspended on [k]
    has its promise settled.  Whatever blocks run before its continuation
    does, as long as no sweep prunes the pushed event, the continuation
    returns that event, unless an event with its id was already in the
    consumed set of the call's consumption key at the push or has been
    handed over under that key since (to another waiter of the same group,
    say). *)
Theorem push_wakes_every_waiter (tr0 tr : list action) (now_id : Z)
    (rnd : string) (now_ts : Z) (k : string) (d : value) (w : nat) (c : call) :
  k ≠ "" →
  let st := (run tr0 init).1 in
  let e := pushed_event now_id rnd now_ts k d in
  let st' := (push now_id rnd now_ts (Some k) d st).1 in
  promises st' !! w = Some c → c_key c = k →
  resolved c = true
  ∧ (Forall (keeps e) tr → Forall (λ a, a ≠ AResume w) tr →
     id e ∉ consumed_by (groupKey k (c_groupId c)) (groupConsumption st) →
     delivered (groupKey k (c_groupId c)) (id e) (run tr st').2 = false →
     ∃ st'' r, blockingGet_resume w (run tr st').1
               = (st'', OReturn (Some k) (Some (c_groupId c)) r)
       ∧ e ∈ r).
Proof.
  intros Hk st e st' Hc Hck.
  assert (resolved c = true) as Hr.
  { destruct (resolved c) eqn:E; [done|].
    assert (pending_ok st') as Hok.
    { apply (pending_ok_step (APush now_id rnd now_ts (Some k) d)).
      apply pending_ok_run, pending_ok_init. }
    destruct (Hok w c Hc E) as (_ & ws & Hws & _).
    subst st'. rewrite push_ok in Hws by done. simpl in Hws.
    by rewrite Hck, lookup_delete_eq in Hws. }
  split; [done|]. intros Hkeep Hnr Hn Hd. subst k.
  assert (names_ok st') as Hnames.
  { apply (names_ok_step (APush now_id rnd now_ts (Some (c_key c)) d)).
    apply names_ok_run, names_ok_init. }
  apply (blockingGet_resume_returns w c (run tr st').1 e).
  - by apply run_settled_stays.
  - done.
  - apply run_keeps; [done|]. subst st'. rewrite push_ok by done. simpl.
    rewrite lookup_insert_eq. simpl. apply elem_of_app. right. constructor.
  - rewrite run_consumed_iff, Hd. intros [Hin|?]; [|done].
    subst st'. by rewrite push_ok in Hin by done.
Qed.

Lemma push_wakes_every_waiter_witness :
  let st := (run [AGet (Some "k") (Some "g"); AGet (Some "k") (Some "h")]
               init).1 in
  let e := pushed_event 5 "r" 5 "k" (VNum 1) in
  let st' := (push 5 "r" 5 (Some "k") (VNum 1) st).1 in
  ∃ st'' r,
    blockingGet_resume 0 (run [AResume 1; ASweep 9000] st').1
    = (st'', OReturn (Some "k") (Some "g") r) ∧ e ∈ r.
Proof.
  destruct (push_wakes_every_waiter
              [AGet (Some "k") (Some "g"); AGet (Some "k") (Some "h")]
              [AResume 1; ASweep 9000]
              5 "r" 5 "k" (VNum 1) 0 (Call "k" "g" true)) as [_ H].
  - discriminate.
  - vm_compute. reflexivity.
  - reflexivity.
  - apply H.
    + repeat constructor.
    + repeat constructor; discriminate.
    + vm_compute. intros E. discriminate E.
    + vm_compute. reflexivity.
Defined.

(** Why the last condition is there: two calls of one group wait on ["k"];
    the push wakes both; the one that resumes first gets the event and the
    other one the empty array. *)
Example second_waiter_of_a_group_gets_nothing :
  (run [AGet (Some "k") (Some "g"); AGet (Some "k") (Some "g");
        APush 5 "r" 5 (Some "k") (VNum 1);
        AResume 0; AResume 1] init).2
  = [OAwait 0; OAwait 1;
     OPushed (Event "k-5-r" (VNum 1) 5) [0%nat; 1%nat];
     OReturn (Some "k") (Some "g") [Event "k-5-r" (VNum 1) 5];
     OReturn (Some "k") (Some "g") []].
Proof. vm_compute. reflexivity. Qed.
